(** * token_manager: the Redis backend of the token lifecycle coordinator

    A shallow embedding of [backends.go].  The Go methods of
    [redisBackend] are state-passing functions over a [World] that holds
    the Redis key space, the wall clock, a script of what the network does
    to each Redis round trip, and the trace of every external interaction
    the code performs. *)

From stdpp Require Import gmap strings list sorting.

Local Open Scope Z_scope.

(** ** Go values *)

(** The values of Go's [error] interface the backend can see.
    [ErrTokenNotFound] is the package sentinel; [RedisNil] is go-redis's
    [redis.Nil]; [ServerErr] is an error reply of the server; [IOErr] is a
    transport failure; [GenErr] stands for whatever else a caller-supplied
    generator returns. *)
Inductive error :=
| ErrTokenNotFound
| RedisNil
| ServerErr (msg : string)
| IOErr (code : nat)
| GenErr (code : nat).

#[global] Instance error_eq_dec : EqDecision error.
Proof. solve_decision. Defined.

(** A Go [(T, error)] return: the value when [err == nil], the error otherwise. *)
Inductive result (A : Type) :=
| Ok (a : A)
| Err (e : error).
Arguments Ok {A} a.
Arguments Err {A} e.

#[global] Instance result_eq_dec {A} `{EqDecision A} : EqDecision (result A).
Proof. solve_decision. Defined.

(** [errors.Is(err, redis.Nil)] *)
Definition is_redis_nil (e : error) : bool := bool_decide (e = RedisNil).

(** ** package time

    A [time.Time] without monotonic reading ([UTC()] strips it) is an
    instant: nanoseconds since the Unix epoch.  A [time.Duration] is a
    signed 64-bit count of nanoseconds. *)
Module time.

Definition Millisecond : Z := 1000000.
Definition Second : Z := 1000000000.
Definition minDuration : Z := - 2 ^ 63.
Definition maxDuration : Z := 2 ^ 63 - 1.

Definition is_Duration (d : Z) : Prop := minDuration ≤ d ≤ maxDuration.

(** [t.Add(d)] *)
Definition Add (t d : Z) : Z := t + d.

(** [t.Sub(u)]: the difference, saturated to the range of [Duration]. *)
Definition Sub (t u : Z) : Z :=
  if bool_decide (t - u < minDuration) then minDuration
  else if bool_decide (maxDuration < t - u) then maxDuration
  else t - u.

(** [t.Unix()]: whole seconds since the epoch, rounded towards minus infinity. *)
Definition Unix (t : Z) : Z := t `div` Second.

End time.

(** ** Redis

    The part of the go-redis client the backend calls.  String keys and
    sorted sets live in two maps: the backend derives their keys with two
    different prefixes (see [token_key_not_user_key]).  A score is a
    float64 on the wire; the backend only sends whole numbers of seconds,
    [float64(expire.Unix())] and the bounds ["0"] and [FormatInt(now)], so
    scores are integers here (exact below 2^53).  A command without the
    members or keys it needs is refused by the server for its arity. *)

Inductive cmd :=
| SetNX (key value : string) (expiration : Z)
| Get (key : string)
| Unlink (keys : list string)
| Exists (key : string)
| ZRemRangeByScore (key : string) (min max : Z)
| ZRange (key : string) (start stop : Z)
| ZRem (key : string) (members : list string)
| ZAdd (key member : string) (score : Z)
| ZScore (key member : string).

Inductive reply :=
| RInt (n : Z)
| RBool (b : bool)
| RBulk (s : string)
| RArray (l : list string)
| RScore (s : Z)
| RNil
| RError (e : error).

#[global] Instance cmd_eq_dec : EqDecision cmd.
Proof. solve_decision. Defined.
#[global] Instance reply_eq_dec : EqDecision reply.
Proof. solve_decision. Defined.

(** Everything the code does to the outside: reading the clock, calling
    the generator, one Redis round trip. *)
Inductive event :=
| EvNow (t : Z)
| EvGen (r : result string)
| EvRedis (c : cmd) (r : reply).

#[global] Instance event_eq_dec : EqDecision event.
Proof. solve_decision. Defined.

(** A string key: its value and, when it has a TTL, the instant it expires. *)
Record entry := { e_value : string; e_expire : option Z }.

#[global] Instance entry_eq_dec : EqDecision entry.
Proof. solve_decision. Defined.

(** [sched] scripts the network: the next round trip takes the head's
    latency and, when the head names a fault, fails with it before reaching
    the server.  An exhausted script means no latency and no fault. *)
Record World := {
  clock : Z;
  kv : gmap string entry;
  zsets : gmap string (gmap string Z);
  sched : list (N * option nat);
  log : list event
}.

Definition with_kv (f : gmap string entry → gmap string entry) (w : World) : World :=
  {| clock := clock w; kv := f (kv w); zsets := zsets w; sched := sched w; log := log w |}.
Definition with_zsets (f : gmap string (gmap string Z) → gmap string (gmap string Z))
  (w : World) : World :=
  {| clock := clock w; kv := kv w; zsets := f (zsets w); sched := sched w; log := log w |}.
Definition record (ev : event) (w : World) : World :=
  {| clock := clock w; kv := kv w; zsets := zsets w; sched := sched w; log := log w ++ [ev] |}.

(** The round trip's share of the script: time passes, and the fault, if any. *)
Definition transit (w : World) : World * option nat :=
  match sched w with
  | [] => (w, None)
  | (dt, fault) :: rest =>
      ({| clock := clock w + Z.of_N dt; kv := kv w; zsets := zsets w;
          sched := rest; log := log w |}, fault)
  end.

(** Keys expire lazily: a key past its expiry is absent to every command. *)
Definition live (now : Z) (e : entry) : bool :=
  match e_expire e with
  | None => true
  | Some t => bool_decide (now < t)
  end.

Definition kv_lookup (w : World) (key : string) : option entry :=
  match kv w !! key with
  | Some e => if live (clock w) e then Some e else None
  | None => None
  end.

(** How go-redis and the server turn [SetNX]'s duration into an expiry:
    0 is a plain SETNX, -1 is [KeepTTL] (nothing to keep on a new key),
    any other duration is sent in milliseconds, at least 1 when positive;
    the server refuses an expire that is not positive. *)
Definition setnx_expire (now d : Z) : option (option Z) :=
  if bool_decide (d = 0) then Some None
  else if bool_decide (d = -1) then Some None
  else if bool_decide (d < 0) then None
  else if bool_decide (d < time.Millisecond) then Some (Some (now + time.Millisecond))
  else Some (Some (now + (d `div` time.Millisecond) * time.Millisecond)).

Definition zset_of (zs : gmap string (gmap string Z)) (key : string) : gmap string Z :=
  default ∅ (zs !! key).

(** A sorted set that becomes empty is removed from the key space. *)
Definition zset_put (key : string) (m : gmap string Z)
  (zs : gmap string (gmap string Z)) : gmap string (gmap string Z) :=
  if decide (m = ∅) then delete key zs else <[key := m]> zs.

(** Sorted-set order: by score, then by member. *)
Definition zleb (a b : string * Z) : bool :=
  bool_decide (a.2 < b.2) || (bool_decide (a.2 = b.2) && String.leb a.1 b.1).

Definition zmembers (m : gmap string Z) : list string :=
  (merge_sort (λ a b, Is_true (zleb a b)) (map_to_list m)).*1.

(** [ZRANGE key start stop] by rank; negative ranks count from the end. *)
Definition zrange (l : list string) (start stop : Z) : list string :=
  let n := Z.of_nat (length l) in
  let start := if bool_decide (start < 0) then Z.max 0 (n + start) else start in
  let stop := if bool_decide (stop < 0) then n + stop else Z.min stop (n - 1) in
  if bool_decide (stop < start) then []
  else take (Z.to_nat (stop - start + 1)) (drop (Z.to_nat start) l).

Definition in_score_range (lo hi : Z) (p : string * Z) : Prop := lo ≤ p.2 ≤ hi.
#[global] Instance in_score_range_dec lo hi p : Decision (in_score_range lo hi p).
Proof. unfold in_score_range. apply _. Defined.

Definition wrong_arity (name : string) : error :=
  ServerErr ("ERR wrong number of arguments for '" +:+ name +:+ "' command").

(** The server's execution of one command. *)
Definition exec (c : cmd) (w : World) : reply * World :=
  match c with
  | SetNX key value d =>
      match setnx_expire (clock w) d with
      | None => (RError (ServerErr "ERR invalid expire time in 'set' command"), w)
      | Some ex =>
          match kv_lookup w key with
          | Some _ => (RBool false, w)
          | None => (RBool true, with_kv (insert key {| e_value := value; e_expire := ex |}) w)
          end
      end
  | Get key =>
      match kv_lookup w key with
      | Some e => (RBulk (e_value e), w)
      | None => (RNil, w)
      end
  | Unlink keys =>
      match keys with
      | [] => (RError (wrong_arity "unlink"), w)
      | _ =>
          (RInt (Z.of_nat (length (filter (λ k, is_Some (kv_lookup w k)) (remove_dups keys)))),
           with_kv (λ m, foldr delete m keys) w)
      end
  | Exists key =>
      (RInt (if kv_lookup w key is Some _ then 1 else 0), w)
  | ZRemRangeByScore key lo hi =>
      let m := zset_of (zsets w) key in
      (RInt (Z.of_nat (size (filter (in_score_range lo hi) m))),
       with_zsets (zset_put key (filter (λ p, ¬ in_score_range lo hi p) m)) w)
  | ZRange key start stop =>
      (RArray (zrange (zmembers (zset_of (zsets w) key)) start stop), w)
  | ZRem key members =>
      match members with
      | [] => (RError (wrong_arity "zrem"), w)
      | _ =>
          let m := zset_of (zsets w) key in
          (RInt (Z.of_nat (length (filter (λ t, is_Some (m !! t)) (remove_dups members)))),
           with_zsets (zset_put key (foldr delete m members)) w)
      end
  | ZAdd key member score =>
      let m := zset_of (zsets w) key in
      (RInt (if m !! member is Some _ then 0 else 1),
       with_zsets (insert key (<[member := score]> m)) w)
  | ZScore key member =>
      match zset_of (zsets w) key !! member with
      | Some s => (RScore s, w)
      | None => (RNil, w)
      end
  end.

(** One round trip of the client: transit, then either the fault or the
    server's reply; the trace records the command with its reply. *)
Definition round_trip (c : cmd) (w : World) : reply * World :=
  let '(w1, fault) := transit w in
  let '(r, w2) := match fault with
                  | Some code => (RError (IOErr code), w1)
                  | None => exec c w1
                  end in
  (r, record (EvRedis c r) w2).

(** ** The backend

    A method of [redisBackend] is a function from the world to its Go
    return and the world it leaves. *)
Definition M (A : Type) : Type := World → result A * World.

Definition ret {A} (a : A) : M A := λ w, (Ok a, w).
Definition fail {A} (e : error) : M A := λ w, (Err e, w).
Definition bind {A B} (m : M A) (k : A → M B) : M B :=
  λ w, match m w with
       | (Ok a, w') => k a w'
       | (Err e, w') => (Err e, w')
       end.

Notation "'let*' x ':=' m 'in' k" := (bind m (λ x, k))
  (at level 10, x pattern, m at level 100, k at level 200).

(** [_ = f(...)]: run [f] and drop what it returns. *)
Definition discard {A} (m : M A) : M unit := λ w, (Ok (), (m w).2).

(** [time.Now().UTC()] *)
Definition time_Now : M Z := λ w, (Ok (clock w), record (EvNow (clock w)) w).

(** One call of the caller-supplied [genToken]; [i] counts the calls. *)
Definition call_gen (genToken : nat → result string) (i : nat) : M string :=
  λ w, (genToken i, record (EvGen (genToken i)) w).

(** The [Result()] and [Err()] accessors of go-redis commands. *)
Definition reply_err (r : reply) : option error :=
  match r with
  | RError e => Some e
  | RNil => Some RedisNil
  | _ => None
  end.

Definition cmd_Err (c : cmd) : M unit :=
  λ w, let '(r, w') := round_trip c w in
       match reply_err r with
       | Some e => (Err e, w')
       | None => (Ok (), w')
       end.

Definition unexpected : error := ServerErr "redis: unexpected reply type".

Definition cmd_Bool (c : cmd) : M bool :=
  λ w, let '(r, w') := round_trip c w in
       match r with
       | RBool b => (Ok b, w')
       | _ => (Err (default unexpected (reply_err r)), w')
       end.

Definition cmd_Int (c : cmd) : M Z :=
  λ w, let '(r, w') := round_trip c w in
       match r with
       | RInt n => (Ok n, w')
       | _ => (Err (default unexpected (reply_err r)), w')
       end.

Definition cmd_String (c : cmd) : M string :=
  λ w, let '(r, w') := round_trip c w in
       match r with
       | RBulk s => (Ok s, w')
       | _ => (Err (default unexpected (reply_err r)), w')
       end.

Definition cmd_StringSlice (c : cmd) : M (list string) :=
  λ w, let '(r, w') := round_trip c w in
       match r with
       | RArray l => (Ok l, w')
       | _ => (Err (default unexpected (reply_err r)), w')
       end.

Definition cmd_Float (c : cmd) : M Z :=
  λ w, let '(r, w') := round_trip c w in
       match r with
       | RScore s => (Ok s, w')
       | _ => (Err (default unexpected (reply_err r)), w')
       end.

Record bUserTokenInfo := { TokenString : string; TokenData : string }.

#[global] Instance bUserTokenInfo_eq_dec : EqDecision bUserTokenInfo.
Proof. solve_decision. Defined.

Definition getUserTokenKey (userId : string) : string :=
  String.concat ":" ["USER_TOKENS"; userId].

Definition getTokenKey (tokenString : string) : string :=
  String.concat ":" ["TOKENS"; tokenString].

Definition saveToken (token value : string) (expire : Z) : M bool :=
  let* result := cmd_Bool (SetNX (getTokenKey token) value expire) in
  ret result.

Definition loadToken (token : string) : M string :=
  let key := getTokenKey token in
  λ w, match cmd_String (Get key) w with
       | (Err err, w') =>
           if is_redis_nil err then (Err ErrTokenNotFound, w') else (Err err, w')
       | (Ok result, w') => (Ok result, w')
       end.

Definition deleteToken (tokens : list string) : M unit :=
  let tokensForDelete := getTokenKey <$> tokens in
  cmd_Err (Unlink tokensForDelete).

Definition isTokenExist (token : string) : M bool :=
  let key := getTokenKey token in
  let* count := cmd_Int (Exists key) in
  if bool_decide (count ≤ 0) then ret false else ret true.

(** The loop of [cleanupUserToken]: the members whose record is gone. *)
Fixpoint collect_stale (userTokens tokensForDelete : list string) : M (list string) :=
  match userTokens with
  | [] => ret tokensForDelete
  | token :: rest =>
      let* ex := isTokenExist token in
      if negb ex then collect_stale rest (tokensForDelete ++ [token])
      else collect_stale rest tokensForDelete
  end.

(** The first two statements of [cleanupUserToken]: read the clock and
    drop the members whose score has passed. *)
Definition removeExpiredByScore (key : string) : M unit :=
  let* now := time_Now in
  cmd_Err (ZRemRangeByScore key 0 (time.Unix now)).

Definition cleanupUserToken (userId : string) : M unit :=
  let key := getUserTokenKey userId in
  let* _ := removeExpiredByScore key in
  let* userTokens := cmd_StringSlice (ZRange key 0 (-1)) in
  let* tokensForDelete := collect_stale userTokens [] in
  cmd_Err (ZRem key tokensForDelete).

(** One turn of the loop of [saveUserToken]: [Some token] when it
    returns the token, [None] when the loop goes round again. *)
Definition issue_attempt (key : string) (genToken : nat → result string)
  (value : string) (expiresIn : Z) (i : nat) : M (option string) :=
  let* now := time_Now in
  let expire := time.Add now expiresIn in
  let* token := call_gen genToken i in
  let* ok := saveToken token value (time.Sub expire now) in
  if ok then
    λ w, match cmd_Err (ZAdd key token (time.Unix expire)) w with
         | (Err err, w') => (Err err, (discard (deleteToken [token]) w').2)
         | (Ok _, w') => (Ok (Some token), w')
         end
  else ret None.

(** The [for] of [saveUserToken], run for at most [fuel] turns. *)
Fixpoint issue_loop (fuel : nat) (key : string) (genToken : nat → result string)
  (value : string) (expiresIn : Z) (i : nat) (w : World) : option (result string * World) :=
  match fuel with
  | O => None
  | S fuel' =>
      match issue_attempt key genToken value expiresIn i w with
      | (Ok None, w') => issue_loop fuel' key genToken value expiresIn (S i) w'
      | (Ok (Some token), w') => Some (Ok token, w')
      | (Err err, w') => Some (Err err, w')
      end
  end.

Definition saveUserToken (fuel : nat) (userId : string) (genToken : nat → result string)
  (value : string) (expiresIn : Z) (w : World) : option (result string * World) :=
  let w1 := (discard (cleanupUserToken userId) w).2 in
  let key := getUserTokenKey userId in
  issue_loop fuel key genToken value expiresIn 0%nat w1.

(** [loadUserToken] after its cleanup. *)
Definition lookup_user_token (userId tokenString : string) : M bUserTokenInfo :=
  let key := getUserTokenKey userId in
  λ w, match cmd_Float (ZScore key tokenString) w with
       | (Err err, w') =>
           if is_redis_nil err
           then (Err ErrTokenNotFound, (discard (deleteToken [tokenString]) w').2)
           else (Err err, w')
       | (Ok _, w') =>
           (let* data := loadToken tokenString in
            ret {| TokenString := tokenString; TokenData := data |}) w'
       end.

Definition loadUserToken (userId tokenString : string) : M bUserTokenInfo :=
  let* _ := discard (cleanupUserToken userId) in
  lookup_user_token userId tokenString.

(** The loop of [loadUserTokenList]; it cannot fail. *)
Fixpoint resolve_each (userId : string) (tokenStringList : list string)
  (userTokenList : list bUserTokenInfo) (w : World) : list bUserTokenInfo * World :=
  match tokenStringList with
  | [] => (userTokenList, w)
  | tokenString :: rest =>
      match loadUserToken userId tokenString w with
      | (Err _, w') => resolve_each userId rest userTokenList w'
      | (Ok userToken, w') => resolve_each userId rest (userTokenList ++ [userToken]) w'
      end
  end.

(** [loadUserTokenList] after its cleanup. *)
Definition list_user_tokens (userId : string) : M (list bUserTokenInfo) :=
  let key := getUserTokenKey userId in
  let* tokenStringList := cmd_StringSlice (ZRange key 0 (-1)) in
  λ w, let '(userTokenList, w') := resolve_each userId tokenStringList [] w in
       (Ok userTokenList, w').

Definition loadUserTokenList (userId : string) : M (list bUserTokenInfo) :=
  let* _ := discard (cleanupUserToken userId) in
  list_user_tokens userId.

(** Modelled from the spec: [deleteUserToken] is declared in the [backend]
    interface, but [redisBackend] has no method of that name in the source.
    The spec has it remove the given tokens from the user's index and from
    the token store, absence in either being no error: here, a [ZRem] of
    the tokens from the user's index, then [deleteToken]. *)
Definition deleteUserToken (userId : string) (tokens : list string) : M unit :=
  let* _ := cmd_Err (ZRem (getUserTokenKey userId) tokens) in
  deleteToken tokens.

(** * Vocabulary of the proofs *)

(** ** What a command can change *)

(** Commands that leave the string keys, respectively the sorted sets, alone. *)
Definition kv_readonly (c : cmd) : bool :=
  match c with
  | SetNX _ _ _ | Unlink _ => false
  | _ => true
  end.

Definition zsets_readonly (c : cmd) : bool :=
  match c with
  | ZRemRangeByScore _ _ _ | ZRem _ _ | ZAdd _ _ _ => false
  | _ => true
  end.

Definition adds (c : cmd) : bool :=
  match c with
  | SetNX _ _ _ | ZAdd _ _ _ => true
  | _ => false
  end.

(** The sorted set a command works on. *)
Definition zkey (c : cmd) : option string :=
  match c with
  | ZRemRangeByScore k _ _ | ZRange k _ _ | ZRem k _ | ZAdd k _ _ | ZScore k _ => Some k
  | _ => None
  end.

(** ** Worlds before and after a call *)

(** The sorted sets of [w'] hold nothing that those of [w] do not. *)
Definition index_shrinks (w w' : World) : Prop :=
  ∀ key t s, zset_of (zsets w') key !! t = Some s → zset_of (zsets w) key !! t = Some s.

(** What a call that adds nothing leaves: a clock that has not gone
    back, no new record, no new index entry, a longer trace. *)
Record frame (w w' : World) : Prop := {
  frame_clock : clock w ≤ clock w';
  frame_kv : kv w' ⊆ kv w;
  frame_index : index_shrinks w w';
  frame_log : ∃ evs, log w' = log w ++ evs
}.

(** The round trips still to come meet no fault. *)
Definition faultless (w : World) : Prop := Forall (λ p, p.2 = None) (sched w).

(** ** Traces *)

(** The events a reconciliation pass can leave in the trace: clock
    readings and round trips that add nothing. *)
Definition reconciling (ev : event) : Prop :=
  match ev with
  | EvNow _ => True
  | EvGen _ => False
  | EvRedis c _ => adds c = false
  end.

(** The events of a turn of the issuance loop that ends in a collision. *)
Definition colliding (ev : event) : Prop :=
  match ev with
  | EvNow _ => True
  | EvGen (Ok _) => True
  | EvRedis (SetNX _ _ _) (RBool false) => True
  | _ => False
  end.

(** Every failed round trip among [evs] is what the call returned. *)
Definition surfaced {A} (res : result A) (evs : list event) : Prop :=
  ∀ c e, EvRedis c (RError e) ∈ evs → res = Err e.

(** Closes a goal whose hypothesis [Hin] puts an event in a list of
    events of other shapes. *)
Ltac not_among Hin :=
  repeat (apply elem_of_cons in Hin as [[=]|Hin]); by apply elem_of_nil in Hin.

(** ** Listing and issuance, step by step *)

(** The listing as the specification words it: resolve each member via
    the path of [loadUserToken]; a member that fails to resolve is skipped,
    a member that resolves contributes its view. *)
Inductive resolves (userId : string) :
  World → list string → list bUserTokenInfo → World → Prop :=
| resolves_done w : resolves userId w [] [] w
| resolves_skip w t err w1 ts views w' :
    loadUserToken userId t w = (Err err, w1) →
    resolves userId w1 ts views w' →
    resolves userId w (t :: ts) views w'
| resolves_keep w t v w1 ts views w' :
    loadUserToken userId t w = (Ok v, w1) →
    resolves userId w1 ts views w' →
    resolves userId w (t :: ts) (v :: views) w'.

(** How one turn of the loop of [saveUserToken] can end. *)
Inductive attempt (key : string) (genToken : nat → result string) (value : string)
  (expiresIn : Z) (i : nat) (w : World) : result (option string) → World → Prop :=
| attempt_gen_error err :
    genToken i = Err err →
    attempt key genToken value expiresIn i w (Err err)
      (record (EvGen (Err err)) (record (EvNow (clock w)) w))
| attempt_store_error token err w' :
    genToken i = Ok token →
    log w' = log w ++ [EvNow (clock w); EvGen (Ok token);
       EvRedis (SetNX (getTokenKey token) value
                  (time.Sub (time.Add (clock w) expiresIn) (clock w))) (RError err)] →
    kv w' = kv w → zsets w' = zsets w → clock w ≤ clock w' →
    attempt key genToken value expiresIn i w (Err err) w'
| attempt_collision token w' :
    genToken i = Ok token →
    log w' = log w ++ [EvNow (clock w); EvGen (Ok token);
       EvRedis (SetNX (getTokenKey token) value
                  (time.Sub (time.Add (clock w) expiresIn) (clock w))) (RBool false)] →
    kv w' = kv w → zsets w' = zsets w → clock w ≤ clock w' →
    attempt key genToken value expiresIn i w (Ok None) w'
| attempt_issued token n e w' :
    genToken i = Ok token →
    log w' = log w ++ [EvNow (clock w); EvGen (Ok token);
       EvRedis (SetNX (getTokenKey token) value
                  (time.Sub (time.Add (clock w) expiresIn) (clock w))) (RBool true);
       EvRedis (ZAdd key token (time.Unix (time.Add (clock w) expiresIn))) (RInt n)] →
    e_value e = value →
    kv w' = <[getTokenKey token := e]> (kv w) →
    zsets w' = <[key := <[token := time.Unix (time.Add (clock w) expiresIn)]>
                          (zset_of (zsets w) key)]> (zsets w) →
    clock w ≤ clock w' →
    attempt key genToken value expiresIn i w (Ok (Some token)) w'
| attempt_index_error token err r e w' :
    genToken i = Ok token →
    log w' = log w ++ [EvNow (clock w); EvGen (Ok token);
       EvRedis (SetNX (getTokenKey token) value
                  (time.Sub (time.Add (clock w) expiresIn) (clock w))) (RBool true);
       EvRedis (ZAdd key token (time.Unix (time.Add (clock w) expiresIn))) (RError err);
       EvRedis (Unlink [getTokenKey token]) r] →
    kv w' ⊆ <[getTokenKey token := e]> (kv w) →
    (∀ n, r = RInt n → kv w' !! getTokenKey token = None) →
    zsets w' = zsets w → clock w ≤ clock w' →
    attempt key genToken value expiresIn i w (Err err) w'.

(** Turns [i] to [j - 1] of the loop each generated a candidate for which
    [saveToken] returned [created = false]. *)
Inductive collisions (genToken : nat → result string) (value : string) (expiresIn : Z) :
  nat → World → nat → World → Prop :=
| collisions_none i w : collisions genToken value expiresIn i w i w
| collisions_more i w token w1 j w' :
    genToken i = Ok token →
    saveToken token value (time.Sub (time.Add (clock w) expiresIn) (clock w))
      (record (EvGen (Ok token)) (record (EvNow (clock w)) w)) = (Ok false, w1) →
    collisions genToken value expiresIn (S i) w1 j w' →
    collisions genToken value expiresIn i w j w'.

(** What [saveUserToken] returns, as the outcome of the last turn of its loop. *)
Definition last_turn (r : result string) : result (option string) :=
  match r with
  | Ok token => Ok (Some token)
  | Err err => Err err
  end.

(** * Scenarios *)

Definition gen_a_then_b (i : nat) : result string :=
  match i with
  | O => Ok "a"
  | _ => Ok "b"
  end.

Definition gen_a_then_fail (i : nat) : result string :=
  match i with
  | O => Ok "a"
  | _ => Err (GenErr 7)
  end.

Definition gen_always_a (i : nat) : result string := Ok "a".

(** A user whose index holds one entry with a score below zero. *)
Definition w_negative_score : World :=
  {| clock := 5 * time.Second;
     kv := ∅;
     zsets := {[ getUserTokenKey "u" := {[ "old" := -1 ]} ]};
     sched := [];
     log := [] |}.

(** An index with one entry already passed, one still to come and one
    below zero. *)
Definition w_mixed_scores : World :=
  {| clock := 5 * time.Second;
     kv := ∅;
     zsets := {[ getUserTokenKey "u" := {[ "old" := -1; "past" := 3; "future" := 9 ]} ]};
     sched := [(7%N, None)];
     log := [] |}.

(** Three entries: "old" with a score below zero and a record that never
    expires, "brief" whose record expires one second from now, "gone" whose
    record is missing.  The last round trip of the pass, the ZREM, takes two
    seconds. *)
Definition w_brief_record : World :=
  {| clock := 5 * time.Second;
     kv := {[ getTokenKey "old" := {| e_value := "p"; e_expire := None |};
              getTokenKey "brief" :=
                {| e_value := "q"; e_expire := Some (6 * time.Second) |} ]};
     zsets := {[ getUserTokenKey "u" := {[ "old" := -1; "brief" := 100; "gone" := 100 ]} ]};
     sched := [(0%N, None); (0%N, None); (0%N, None); (0%N, None); (0%N, None);
               (2000000000%N, None)];
     log := [] |}.

(** The index lists "m", whose record is gone, and the pass that would
    have removed it fails in transit at its first round trip. *)
Definition w_stale_member : World :=
  {| clock := 5 * time.Second;
     kv := {[ getTokenKey "x" := {| e_value := "px"; e_expire := None |} ]};
     zsets := {[ getUserTokenKey "u" := {[ "m" := 100 ]} ]};
     sched := [(0%N, Some 1%nat)];
     log := [] |}.

(** The index lists "a", whose record exists, and "m", whose record is
    gone; the pass the listing starts with fails in transit. *)
Definition w_two_members : World :=
  {| clock := 5 * time.Second;
     kv := {[ getTokenKey "a" := {| e_value := "pa"; e_expire := None |} ]};
     zsets := {[ getUserTokenKey "u" := {[ "a" := 100; "m" := 100 ]} ]};
     sched := [(0%N, Some 1%nat)];
     log := [] |}.

(** The record of "a" exists and never expires; the fifth round trip, the
    first [SetNX] of the call, takes a second and a half. *)
Definition w_taken_a : World :=
  {| clock := 5 * time.Second;
     kv := {[ getTokenKey "a" := {| e_value := "pa"; e_expire := None |} ]};
     zsets := {[ getUserTokenKey "u" := {[ "a" := 100 ]} ]};
     sched := [(0%N, None); (0%N, None); (0%N, None); (0%N, None); (1500000000%N, None)];
     log := [] |}.

Definition w_after_issue : World :=
  match saveUserToken 5 "u" gen_a_then_b "v" (2 * time.Second) w_taken_a with
  | Some (_, w') => w'
  | None => w_taken_a
  end.

Definition w_after_gen_failure : World :=
  match saveUserToken 5 "u" gen_a_then_fail "v" (2 * time.Second) w_taken_a with
  | Some (_, w') => w'
  | None => w_taken_a
  end.

(** Nothing is stored or indexed; the fifth round trip of the call, the
    [ZAdd], fails in transit with code 3, and the sixth, the rollback
    [Unlink], with code [k]. *)
Definition w_index_fails (k : nat) : World :=
  {| clock := 5 * time.Second;
     kv := ∅;
     zsets := ∅;
     sched := [(0%N, None); (0%N, None); (0%N, None); (0%N, None);
               (0%N, Some 3%nat); (0%N, Some k)];
     log := [] |}.

Definition w_after_index_failure (k : nat) : World :=
  match saveUserToken 5 "u" gen_a_then_b "v" (2 * time.Second) (w_index_fails k) with
  | Some (_, w') => w'
  | None => w_index_fails k
  end.

(** The one entry of the index has a record that never expires. *)
Definition w_all_alive : World :=
  {| clock := 5 * time.Second;
     kv := {[ getTokenKey "a" := {| e_value := "pa"; e_expire := None |} ]};
     zsets := {[ getUserTokenKey "u" := {[ "a" := 100 ]} ]};
     sched := [];
     log := [] |}.

(** "t" was issued for 1.9 seconds at second 5: its score is 6, its record
    expires at 6.9 seconds, and it is now 6.2 seconds. *)
Definition w_score_passed : World :=
  {| clock := 6200000000;
     kv := {[ getTokenKey "t" := {| e_value := "pt"; e_expire := Some 6900000000 |} ]};
     zsets := {[ getUserTokenKey "u" := {[ "t" := 6 ]} ]};
     sched := [];
     log := [] |}.

(** "t" belongs to "owner", whose index lists it; its record never expires. *)
Definition w_owned : World :=
  {| clock := 5 * time.Second;
     kv := {[ getTokenKey "t" := {| e_value := "pt"; e_expire := None |} ]};
     zsets := {[ getUserTokenKey "owner" := {[ "t" := 100 ]} ]};
     sched := [];
     log := [] |}.


(** The world [saveUserToken] leaves after issuing "b" from [w_all_alive]. *)
Definition w_settled : World :=
  match saveUserToken 5 "u" gen_a_then_b "v" (2 * time.Second) w_all_alive with
  | Some (_, w') => w'
  | None => w_all_alive
  end.

(** The store still holds a record of "a" that expired four seconds ago. *)
Definition w_expired_a : World :=
  {| clock := 5 * time.Second;
     kv := {[ getTokenKey "a" := {| e_value := "old"; e_expire := Some time.Second |} ]};
     zsets := ∅;
     sched := [];
     log := [] |}.

Definition w_after_reissue : World :=
  match saveUserToken 5 "u" gen_always_a "v" (2 * time.Second) w_expired_a with
  | Some (_, w') => w'
  | None => w_expired_a
  end.

(** * Lemmas *)

(** ** Keys *)

(** Token keys and index keys never meet: the prefixes differ in their
    first letter. *)
Lemma token_key_not_user_key (tokenString userId : string) :
  getTokenKey tokenString ≠ getUserTokenKey userId.
Proof. intros H. vm_compute in H. discriminate. Qed.

Lemma getTokenKey_inj (a b : string) : getTokenKey a = getTokenKey b → a = b.
Proof. intros H. vm_compute in H. by injection H. Qed.

(** ** The sorted-set layer *)

Lemma zset_of_put (key key' : string) (m : gmap string Z) zs :
  zset_of (zset_put key m zs) key' = if decide (key = key') then m else zset_of zs key'.
Proof.
  unfold zset_of, zset_put. destruct (decide (m = ∅)) as [->|Hm].
  - rewrite lookup_delete. by destruct (decide (key = key')).
  - rewrite lookup_insert. by destruct (decide (key = key')).
Qed.

Lemma zset_of_insert (key key' : string) (m : gmap string Z) zs :
  zset_of (<[key := m]> zs) key' = if decide (key = key') then m else zset_of zs key'.
Proof. unfold zset_of. rewrite lookup_insert. by destruct (decide (key = key')). Qed.

Lemma lookup_foldr_delete {V} (ks : list string) (m : gmap string V) (k : string) :
  foldr delete m ks !! k = if decide (k ∈ ks) then None else m !! k.
Proof.
  induction ks as [|a ks IH]; cbn [foldr].
  - rewrite decide_False; [done | set_solver].
  - rewrite lookup_delete. destruct (decide (a = k)) as [->|Hne].
    + rewrite decide_True; [done | set_solver].
    + rewrite IH. destruct (decide (k ∈ ks)).
      * rewrite decide_True; [done | by right].
      * rewrite decide_False; [done |]. by intros [?|?]%elem_of_cons.
Qed.

Lemma zrange_all (l : list string) : zrange l 0 (-1) = l.
Proof.
  unfold zrange. repeat case_bool_decide; try lia.
  - destruct l; [done | simpl length in *; lia].
  - replace (Z.to_nat 0) with 0%nat by done. rewrite drop_0.
    apply take_ge. lia.
Qed.

Lemma elem_of_zmembers (m : gmap string Z) (t : string) :
  t ∈ zmembers m ↔ is_Some (m !! t).
Proof.
  unfold zmembers. rewrite list_elem_of_fmap. split.
  - intros [[t' s] [-> Hin]]. rewrite merge_sort_Permutation in Hin.
    apply elem_of_map_to_list in Hin. eauto.
  - intros [s Hs]. exists (t, s). split; [done |].
    rewrite merge_sort_Permutation. by apply elem_of_map_to_list.
Qed.

Lemma zmembers_NoDup (m : gmap string Z) : NoDup (zmembers m).
Proof.
  unfold zmembers. rewrite merge_sort_Permutation. apply NoDup_fst_map_to_list.
Qed.

(** ** Round trips *)

Lemma transit_fields (w : World) :
  clock w ≤ clock (transit w).1 ∧ kv (transit w).1 = kv w ∧
  zsets (transit w).1 = zsets w ∧ log (transit w).1 = log w.
Proof.
  unfold transit. destruct (sched w) as [|[dt f] rest]; simpl; [done |].
  repeat split; lia.
Qed.

Lemma exec_fields (c : cmd) (w : World) :
  clock (exec c w).2 = clock w ∧ log (exec c w).2 = log w ∧ sched (exec c w).2 = sched w.
Proof.
  destruct c; simpl; repeat case_match; simplify_eq/=; done.
Qed.

Lemma exec_kv_readonly (c : cmd) (w : World) :
  kv_readonly c → kv (exec c w).2 = kv w.
Proof. destruct c; simpl; intros ?; repeat case_match; simplify_eq/=; done. Qed.

Lemma exec_zsets_readonly (c : cmd) (w : World) :
  zsets_readonly c → zsets (exec c w).2 = zsets w.
Proof. destruct c; simpl; intros ?; repeat case_match; simplify_eq/=; done. Qed.

Lemma round_trip_log (c : cmd) (w : World) :
  log (round_trip c w).2 = log w ++ [EvRedis c (round_trip c w).1].
Proof.
  unfold round_trip. destruct (transit_fields w) as (_ & _ & _ & Hl).
  destruct (transit w) as [w1 [code|]]; simpl in *; [by rewrite Hl |].
  destruct (exec_fields c w1) as (_ & Hl' & _).
  destruct (exec c w1) as [r w2]; simpl in *. by rewrite Hl', Hl.
Qed.

Lemma round_trip_clock (c : cmd) (w : World) : clock w ≤ clock (round_trip c w).2.
Proof.
  unfold round_trip. destruct (transit_fields w) as (Hc & _).
  destruct (transit w) as [w1 [code|]]; simpl in *; [done |].
  destruct (exec_fields c w1) as (Hc' & _).
  destruct (exec c w1) as [r w2]; simpl in *. lia.
Qed.

Lemma round_trip_kv_readonly (c : cmd) (w : World) :
  kv_readonly c → kv (round_trip c w).2 = kv w.
Proof.
  intros Hro. unfold round_trip. destruct (transit_fields w) as (_ & Hk & _).
  destruct (transit w) as [w1 [code|]]; simpl in *; [done |].
  pose proof (exec_kv_readonly c w1 Hro) as Hk'.
  destruct (exec c w1) as [r w2]; simpl in *. congruence.
Qed.

Lemma round_trip_zsets_readonly (c : cmd) (w : World) :
  zsets_readonly c → zsets (round_trip c w).2 = zsets w.
Proof.
  intros Hro. unfold round_trip. destruct (transit_fields w) as (_ & _ & Hz & _).
  destruct (transit w) as [w1 [code|]]; simpl in *; [done |].
  pose proof (exec_zsets_readonly c w1 Hro) as Hz'.
  destruct (exec c w1) as [r w2]; simpl in *. congruence.
Qed.

(** A round trip either fails in transit or is executed by the server on
    the world as it is after the transit. *)
Lemma round_trip_inv (c : cmd) (w : World) (r : reply) (w' : World) :
  round_trip c w = (r, w') →
  ∃ w1, clock w ≤ clock w1 ∧ kv w1 = kv w ∧ zsets w1 = zsets w ∧ log w1 = log w ∧
        ((∃ code, r = RError (IOErr code) ∧ w' = record (EvRedis c r) w1) ∨
         (∃ w2, exec c w1 = (r, w2) ∧ w' = record (EvRedis c r) w2)).
Proof.
  unfold round_trip. destruct (transit_fields w) as (Hc & Hk & Hz & Hl).
  destruct (transit w) as [w1 [code|]]; simpl in *.
  - intros [= <- <-]. exists w1. repeat split; try done. left. by exists code.
  - destruct (exec c w1) as [r2 w2] eqn:He. intros [= <- <-].
    exists w1. repeat split; try done. right. by exists w2.
Qed.

(** ** The fast path of reconciliation *)

Lemma removeExpiredByScore_ok (key : string) (w w' : World) :
  removeExpiredByScore key w = (Ok (), w') →
  (∀ key' t s, zset_of (zsets w') key' !! t = Some s ↔
     zset_of (zsets w) key' !! t = Some s ∧
     ¬ (key' = key ∧ 0 ≤ s ≤ time.Unix (clock w))) ∧
  kv w' = kv w ∧ clock w ≤ clock w' ∧
  ∃ n, log w' = log w ++ [EvNow (clock w);
                          EvRedis (ZRemRangeByScore key 0 (time.Unix (clock w))) (RInt n)].
Proof.
  unfold removeExpiredByScore, bind, time_Now, cmd_Err.
  destruct (round_trip _ _) as [r w2] eqn:Hrt.
  apply round_trip_inv in Hrt as (w1 & Hc & Hk & Hz & Hl & [(code & -> & ->)|(w3 & He & ->)]);
    simpl in *; [done |].
  injection He as <- <-. simpl. intros [= <-]. simpl.
  rewrite Hk, Hz, Hl. split; [| split; [done | split; [done |]]].
  - intros key' t s. rewrite zset_of_put.
    destruct (decide (key = key')) as [<-|Hne].
    + rewrite map_lookup_filter_Some. unfold in_score_range. simpl. split.
      * intros [Hs Hn]. split; [done |]. by intros [_ Hr].
      * intros [Hs Hn]. split; [done |]. intros Hr. by apply Hn.
    + split; [intros Hs; split; [done |]; by intros [-> _] | by intros [Hs _]].
  - eexists. by rewrite <- app_assoc.
Qed.

(** ** Frames

    What the world after a call has in common with the world before it.
    Only [SetNX] and [ZAdd] add anything; everything else the backend
    sends leaves the records and the index entries as they were or
    removes some. *)

Lemma frame_refl (w : World) : frame w w.
Proof.
  split; [lia | done | by intros ??? | exists []; by rewrite app_nil_r].
Qed.

Lemma frame_trans (w1 w2 w3 : World) : frame w1 w2 → frame w2 w3 → frame w1 w3.
Proof.
  intros [Hc1 Hk1 Hi1 [e1 Hl1]] [Hc2 Hk2 Hi2 [e2 Hl2]]. split.
  - lia.
  - by etrans.
  - intros key t s Hs. by apply Hi1, Hi2.
  - exists (e1 ++ e2). by rewrite Hl2, Hl1, app_assoc.
Qed.

Lemma foldr_delete_subseteq {V} (ks : list string) (m : gmap string V) :
  foldr delete m ks ⊆ m.
Proof.
  apply map_subseteq_spec. intros k v. rewrite lookup_foldr_delete.
  by destruct (decide (k ∈ ks)).
Qed.

Lemma exec_frame (c : cmd) (w : World) : adds c = false → frame w (exec c w).2.
Proof.
  intros Hc. destruct (exec_fields c w) as (Hclk & Hlog & _).
  split.
  - lia.
  - destruct c; simpl in *; try done; repeat case_match; simplify_eq/=; try done.
    match goal with |- delete ?a (foldr delete ?m ?l) ⊆ _ =>
      apply (foldr_delete_subseteq (a :: l)) end.
  - intros key t s.
    destruct c; simpl in *; try done; repeat case_match; simplify_eq/=; try done.
    + rewrite zset_of_put. case_decide; [| done]. subst.
      by intros [? _]%map_lookup_filter_Some.
    + rewrite zset_of_put. case_decide; [| done]. subst.
      match goal with |- context [delete ?a (foldr delete ?m ?l)] =>
        change (delete a (foldr delete m l)) with (foldr delete m (a :: l)) end.
      rewrite lookup_foldr_delete. by case_decide.
  - exists []. by rewrite app_nil_r.
Qed.

Lemma round_trip_frame (c : cmd) (w : World) : adds c = false → frame w (round_trip c w).2.
Proof.
  intros Hc. destruct (round_trip c w) as [r w'] eqn:Hrt. simpl.
  pose proof (round_trip_log c w) as Hlog. rewrite Hrt in Hlog. simpl in Hlog.
  apply round_trip_inv in Hrt as (w1 & Hclk & Hk & Hz & Hl & Hcase).
  assert (Hf1 : frame w w1).
  { split; [done | by rewrite Hk | intros ???; by rewrite Hz | exists []; by rewrite app_nil_r]. }
  destruct Hcase as [(code & -> & ->)|(w2 & He & ->)].
  - destruct Hf1 as [? ? ? ?]. split; simpl; eauto.
  - pose proof (exec_frame c w1 Hc) as Hf2. rewrite He in Hf2. simpl in Hf2.
    destruct (frame_trans _ _ _ Hf1 Hf2) as [? ? ? ?]. split; simpl; eauto.
Qed.

Lemma live_earlier (t t' : Z) (e : entry) : t ≤ t' → live t' e → live t e.
Proof.
  unfold live. destruct (e_expire e); [| done].
  intros Ht H%bool_decide_unpack. apply bool_decide_pack. lia.
Qed.

(** ** Reconciliation *)

Lemma isTokenExist_inv (token : string) (w : World) (res : result bool) (w' : World) :
  isTokenExist token w = (res, w') →
  clock w ≤ clock w' ∧ kv w' = kv w ∧ zsets w' = zsets w ∧
  (∃ r, log w' = log w ++ [EvRedis (Exists (getTokenKey token)) r] ∧
        ∀ e, r = RError e → res = Err e) ∧
  (res = Ok true → ∃ e, kv w !! getTokenKey token = Some e ∧ live (clock w') e).
Proof.
  unfold isTokenExist, bind, cmd_Int.
  destruct (round_trip _ _) as [r w2] eqn:Hrt.
  pose proof (round_trip_clock (Exists (getTokenKey token)) w) as Hc.
  pose proof (round_trip_kv_readonly (Exists (getTokenKey token)) w I) as Hk.
  pose proof (round_trip_zsets_readonly (Exists (getTokenKey token)) w I) as Hz.
  pose proof (round_trip_log (Exists (getTokenKey token)) w) as Hl.
  rewrite Hrt in Hc, Hk, Hz, Hl. simpl in Hc, Hk, Hz, Hl.
  apply round_trip_inv in Hrt as (w1 & _ & Hk1 & _ & _ & [(code & -> & ->)|(w3 & He & ->)]).
  - simpl. intros [= <- <-].
    split; [done |]. split; [done |]. split; [done |]. split; [| done].
    exists (RError (IOErr code)). split; [done |]. by intros e [= ->].
  - simpl in He. injection He as <- <-. simpl in Hc.
    unfold kv_lookup in *. rewrite Hk1 in *.
    destruct (kv w !! getTokenKey token) as [e|] eqn:Hkv.
    + destruct (live (clock w1) e) eqn:Hlive; simpl; intros [= <- <-];
        (split; [done |]; split; [done |]; split; [done |]; split;
         [eexists; split; [done | by intros ? [=]] |]); [| done].
      intros _. exists e. split; [done |]. simpl. by rewrite Hlive.
    + simpl. intros [= <- <-].
      split; [done |]. split; [done |]. split; [done |]. split; [| done].
      eexists. split; [done | by intros ? [=]].
Qed.

Lemma collect_stale_cons (token : string) (rest acc : list string) (w : World) :
  collect_stale (token :: rest) acc w =
  match isTokenExist token w with
  | (Ok ex, w1) => collect_stale rest (if ex then acc else acc ++ [token]) w1
  | (Err e, w1) => (Err e, w1)
  end.
Proof. simpl. unfold bind. by destruct (isTokenExist token w) as [[[|]|e] w1]. Qed.

Lemma surfaced_nil {A} (res : result A) : surfaced res [].
Proof. intros c e Hin. by apply elem_of_nil in Hin. Qed.

Lemma surfaced_cons_ok {A} (res : result A) (ev : event) (evs : list event) :
  (∀ c e, ev ≠ EvRedis c (RError e)) → surfaced res evs → surfaced res (ev :: evs).
Proof.
  intros Hev Hs c e [Heq|Hin]%elem_of_cons; [by destruct (Hev c e) | by eapply Hs].
Qed.

Lemma surfaced_app_ok {A} (res : result A) (evs1 evs2 : list event) :
  (∀ c e, EvRedis c (RError e) ∉ evs1) → surfaced res evs2 → surfaced res (evs1 ++ evs2).
Proof.
  intros Hev Hs c e [Hin|Hin]%elem_of_app; [by destruct (Hev c e) | by eapply Hs].
Qed.

Lemma collect_stale_inv (userTokens acc : list string) (w : World)
  (res : result (list string)) (w' : World) :
  collect_stale userTokens acc w = (res, w') →
  clock w ≤ clock w' ∧ kv w' = kv w ∧ zsets w' = zsets w ∧
  (∃ evs, log w' = log w ++ evs ∧ surfaced res evs) ∧
  (∀ out, res = Ok out →
     (∀ t, t ∈ acc → t ∈ out) ∧
     (∀ t, t ∈ out → t ∈ acc ∨ t ∈ userTokens) ∧
     (∀ t, t ∈ userTokens → t ∉ out →
        ∃ e, kv w !! getTokenKey t = Some e ∧ live (clock w) e)).
Proof.
  revert acc w. induction userTokens as [|token rest IH]; intros acc w.
  - simpl. unfold ret. intros [= <- <-].
    split; [lia |]. split; [done |]. split; [done |]. split.
    + exists []. split; [by rewrite app_nil_r | apply surfaced_nil].
    + intros out [= <-]. split; [done |]. split; [by left |].
      intros t Hin. by apply elem_of_nil in Hin.
  - rewrite collect_stale_cons.
    destruct (isTokenExist token w) as [[ex|err] w1] eqn:Hex;
      apply isTokenExist_inv in Hex as (Hc1 & Hk1 & Hz1 & (r & Hl1 & Hr) & Hlive).
    + intros (Hc2 & Hk2 & Hz2 & (evs & Hl2 & Hsurf) & Hout)%IH.
      split; [lia |]. split; [congruence |]. split; [congruence |]. split.
      * exists (EvRedis (Exists (getTokenKey token)) r :: evs).
        split; [by rewrite Hl2, Hl1, <- app_assoc |].
        apply surfaced_cons_ok; [| done].
        intros c e [= _ ->]. by specialize (Hr e eq_refl).
      * intros out ->. destruct (Hout out eq_refl) as (Hacc & Hsub & Hmiss).
        split; [| split].
        -- intros t Hin. apply Hacc. destruct ex; [done |].
           apply elem_of_app. by left.
        -- intros t Hin. rewrite elem_of_cons.
           destruct (Hsub t Hin) as [Ha|Hr']; [| by auto].
           destruct ex; [by left |].
           apply elem_of_app in Ha as [?|Ht%list_elem_of_singleton]; by auto.
        -- intros t [->|Hin]%elem_of_cons Hnot.
           ++ destruct ex.
              ** destruct (Hlive eq_refl) as (e & Hkv & Hlv). exists e.
                 split; [done |]. by eapply live_earlier.
              ** exfalso. apply Hnot, Hacc, elem_of_app. right.
                 by apply list_elem_of_singleton.
           ++ destruct (Hmiss t Hin Hnot) as (e & Hkv & Hlv). exists e.
              split; [congruence |]. by eapply live_earlier.
    + intros [= <- <-].
      split; [done |]. split; [done |]. split; [done |]. split.
      * exists [EvRedis (Exists (getTokenKey token)) r]. split; [done |].
        intros c e [= -> <-]%list_elem_of_singleton.
        specialize (Hr e eq_refl). by simplify_eq.
      * intros out [=].
Qed.

Lemma exec_zsets_other (c : cmd) (w : World) (key : string) :
  zkey c ≠ Some key → zset_of (zsets (exec c w).2) key = zset_of (zsets w) key.
Proof.
  destruct c; simpl; intros Hk; repeat case_match; simplify_eq/=; try done.
  - rewrite zset_of_put. case_decide; congruence.
  - rewrite zset_of_put. case_decide; congruence.
  - rewrite zset_of_insert. case_decide; congruence.
Qed.

Lemma round_trip_zsets_other (c : cmd) (w : World) (key : string) :
  zkey c ≠ Some key → zset_of (zsets (round_trip c w).2) key = zset_of (zsets w) key.
Proof.
  intros Hk. unfold round_trip. destruct (transit_fields w) as (_ & _ & Hz & _).
  destruct (transit w) as [w1 [code|]]; simpl in *; [by rewrite Hz |].
  pose proof (exec_zsets_other c w1 key Hk) as Hz'.
  destruct (exec c w1) as [r w2]; simpl in *. by rewrite Hz', Hz.
Qed.

Lemma cmd_Err_inv (c : cmd) (w : World) (res : result ()) (w' : World) :
  cmd_Err c w = (res, w') →
  ∃ r, round_trip c w = (r, w') ∧
       res = match reply_err r with Some e => Err e | None => Ok () end.
Proof.
  unfold cmd_Err. destruct (round_trip c w) as [r w2].
  destruct (reply_err r) eqn:Hr; intros [= <- <-]; exists r; by rewrite Hr.
Qed.

Lemma removeExpiredByScore_inv (key : string) (w : World) (res : result ()) (w' : World) :
  removeExpiredByScore key w = (res, w') →
  clock w ≤ clock w' ∧ kv w' = kv w ∧ index_shrinks w w' ∧
  (∀ key', key' ≠ key → zset_of (zsets w') key' = zset_of (zsets w) key') ∧
  ∃ r, log w' = log w ++ [EvNow (clock w);
                          EvRedis (ZRemRangeByScore key 0 (time.Unix (clock w))) r] ∧
       ∀ e, r = RError e → res = Err e.
Proof.
  unfold removeExpiredByScore, bind, time_Now.
  intros (r & Hrt & ->)%cmd_Err_inv.
  set (c := ZRemRangeByScore key 0 (time.Unix (clock w))) in *.
  set (w0 := record (EvNow (clock w)) w) in *.
  pose proof (round_trip_frame c w0 eq_refl) as [Hc _ Hi _].
  pose proof (round_trip_kv_readonly c w0 I) as Hk.
  pose proof (round_trip_log c w0) as Hl.
  pose proof (λ key', round_trip_zsets_other c w0 key') as Hz.
  rewrite Hrt in Hc, Hk, Hi, Hl, Hz. simpl in Hc, Hk, Hi, Hl, Hz.
  split; [done |]. split; [done |]. split; [done |]. split.
  - intros key' Hne. apply Hz. simpl. congruence.
  - exists r. split; [by rewrite Hl, <- app_assoc |]. by intros e ->.
Qed.

Lemma ZRange_all_inv (key : string) (w : World) (res : result (list string)) (w' : World) :
  cmd_StringSlice (ZRange key 0 (-1)) w = (res, w') →
  clock w ≤ clock w' ∧ kv w' = kv w ∧ zsets w' = zsets w ∧
  (∃ r, log w' = log w ++ [EvRedis (ZRange key 0 (-1)) r] ∧ ∀ e, r = RError e → res = Err e) ∧
  (∀ l, res = Ok l → l = zmembers (zset_of (zsets w) key)).
Proof.
  unfold cmd_StringSlice. destruct (round_trip _ _) as [r w2] eqn:Hrt.
  set (c := ZRange key 0 (-1)) in *.
  pose proof (round_trip_clock c w) as Hc.
  pose proof (round_trip_kv_readonly c w I) as Hk.
  pose proof (round_trip_zsets_readonly c w I) as Hz.
  pose proof (round_trip_log c w) as Hl.
  rewrite Hrt in Hc, Hk, Hz, Hl. simpl in Hc, Hk, Hz, Hl.
  apply round_trip_inv in Hrt as (w1 & _ & _ & Hz1 & _ & [(code & -> & ->)|(w3 & He & ->)]).
  - simpl. intros [= <- <-].
    split; [done |]. split; [done |]. split; [done |]. split; [| done].
    eexists. split; [done |]. by intros e [= ->].
  - simpl in He. injection He as <- <-. intros [= <- <-].
    split; [done |]. split; [done |]. split; [done |]. split.
    + eexists. split; [done |]. by intros e [=].
    + intros l [= <-]. by rewrite zrange_all, Hz1.
Qed.

Lemma ZRem_inv (key : string) (members : list string) (w : World)
  (res : result ()) (w' : World) :
  cmd_Err (ZRem key members) w = (res, w') →
  clock w ≤ clock w' ∧ kv w' = kv w ∧ index_shrinks w w' ∧
  (∀ key', key' ≠ key → zset_of (zsets w') key' = zset_of (zsets w) key') ∧
  (∃ r, log w' = log w ++ [EvRedis (ZRem key members) r] ∧ ∀ e, r = RError e → res = Err e) ∧
  (res = Ok () →
     members ≠ [] ∧ zset_of (zsets w') key = foldr delete (zset_of (zsets w) key) members).
Proof.
  intros (r & Hrt & ->)%cmd_Err_inv.
  set (c := ZRem key members) in *.
  pose proof (round_trip_frame c w eq_refl) as [Hc _ Hi _].
  pose proof (round_trip_kv_readonly c w I) as Hk.
  pose proof (round_trip_log c w) as Hl.
  pose proof (λ key', round_trip_zsets_other c w key') as Hz.
  rewrite Hrt in Hc, Hk, Hi, Hl, Hz. simpl in Hc, Hk, Hi, Hl, Hz.
  split; [done |]. split; [done |]. split; [done |]. split; [| split].
  - intros key' Hne. apply Hz. simpl. congruence.
  - exists r. split; [done |]. by intros e ->.
  - apply round_trip_inv in Hrt as (w1 & _ & _ & Hz1 & _ & [(code & -> & ->)|(w3 & He & ->)]);
      [done |].
    simpl in He. destruct members as [|m ms]; [by injection He as <- <- |].
    injection He as <- <-. simpl. intros _. split; [done |].
    by rewrite zset_of_put, decide_True, Hz1.
Qed.

Lemma index_shrinks_refl (w : World) : index_shrinks w w.
Proof. by intros ???. Qed.

Lemma index_shrinks_trans (w1 w2 w3 : World) :
  index_shrinks w1 w2 → index_shrinks w2 w3 → index_shrinks w1 w3.
Proof. intros H1 H2 key t s Hs. by apply H1, H2. Qed.

Lemma index_shrinks_eq (w w' : World) : zsets w' = zsets w → index_shrinks w w'.
Proof. intros Hz key t s. by rewrite Hz. Qed.

(** What a reconciliation pass does, whatever it returns, and what holds
    of the index when it returns nil. *)
Lemma cleanupUserToken_inv (userId : string) (w : World) (res : result ()) (w' : World) :
  cleanupUserToken userId w = (res, w') →
  clock w ≤ clock w' ∧ kv w' = kv w ∧ index_shrinks w w' ∧
  (∀ key, key ≠ getUserTokenKey userId → zset_of (zsets w') key = zset_of (zsets w) key) ∧
  (∃ evs, log w' = log w ++ EvNow (clock w) :: evs ∧ surfaced res evs) ∧
  (res = Ok () →
     ∀ t s, zset_of (zsets w') (getUserTokenKey userId) !! t = Some s →
       zset_of (zsets w) (getUserTokenKey userId) !! t = Some s ∧
       ¬ (0 ≤ s ≤ time.Unix (clock w)) ∧
       ∃ e, kv w !! getTokenKey t = Some e ∧ live (clock w) e).
Proof.
  unfold cleanupUserToken. set (key := getUserTokenKey userId).
  unfold bind at 1.
  destruct (removeExpiredByScore key w) as [[[]|e1] w1] eqn:H1.
  2:{ intros [= <- <-].
      apply removeExpiredByScore_inv in H1 as (Hc & Hk & Hi & Hz & r & Hl & Hr).
      split; [done |]. split; [done |]. split; [done |]. split; [done |]. split; [| done].
      eexists. split; [exact Hl |].
      intros c e [= -> <-]%list_elem_of_singleton. by apply Hr. }
  pose proof H1 as H1'.
  apply removeExpiredByScore_inv in H1 as (Hc1 & Hk1 & Hi1 & Hz1 & r1 & Hl1 & Hr1).
  apply removeExpiredByScore_ok in H1' as (Hrange & _).
  assert (Hs1 : surfaced (Ok ()) [EvRedis (ZRemRangeByScore key 0 (time.Unix (clock w))) r1]).
  { intros c e [= -> <-]%list_elem_of_singleton. by apply Hr1. }
  unfold bind at 1.
  destruct (cmd_StringSlice (ZRange key 0 (-1)) w1) as [[userTokens|e2] w2] eqn:H2;
    apply ZRange_all_inv in H2 as (Hc2 & Hk2 & Hz2 & (r2 & Hl2 & Hr2) & Hmem).
  2:{ intros [= <- <-].
      split; [lia |]. split; [congruence |].
      split; [eapply index_shrinks_trans; [done | by apply index_shrinks_eq] |].
      split; [intros k Hk; rewrite Hz2; by apply Hz1 |]. split; [| done].
      eexists. split; [rewrite Hl2, Hl1, <- app_assoc; simpl; reflexivity |].
      intros c e [Heq|Hin]%elem_of_cons.
      - injection Heq as -> <-. by specialize (Hr1 e eq_refl).
      - apply list_elem_of_singleton in Hin. injection Hin as -> <-.
        specialize (Hr2 e eq_refl). by simplify_eq. }
  specialize (Hmem _ eq_refl). subst userTokens.
  unfold bind at 1.
  destruct (collect_stale _ [] w2) as [[stale|e3] w3] eqn:H3;
    apply collect_stale_inv in H3 as (Hc3 & Hk3 & Hz3 & (evs3 & Hl3 & Hs3) & Hout).
  2:{ intros [= <- <-].
      split; [lia |]. split; [congruence |].
      split; [eapply index_shrinks_trans; [done | apply index_shrinks_eq; congruence] |].
      split; [intros k Hk; rewrite Hz3, Hz2; by apply Hz1 |]. split; [| done].
      eexists. split; [rewrite Hl3, Hl2, Hl1, <- !app_assoc; simpl; reflexivity |].
      intros c e [Heq|[Heq|Hin]%elem_of_cons]%elem_of_cons.
      - injection Heq as -> <-. by specialize (Hr1 e eq_refl).
      - injection Heq as -> <-. by specialize (Hr2 e eq_refl).
      - specialize (Hs3 c e Hin). by simplify_eq. }
  destruct (Hout _ eq_refl) as (_ & Hsub & Hkept).
  intros H4. apply ZRem_inv in H4 as (Hc4 & Hk4 & Hi4 & Hz4 & (r4 & Hl4 & Hr4) & Hok).
  split; [lia |]. split; [congruence |]. split.
  { apply (index_shrinks_trans _ w1); [exact Hi1 |].
    apply (index_shrinks_trans _ w3); [apply index_shrinks_eq; congruence | exact Hi4]. }
  split; [intros k Hk; rewrite Hz4, Hz3, Hz2 by done; by apply Hz1 |]. split.
  - eexists. split; [rewrite Hl4, Hl3, Hl2, Hl1, <- !app_assoc; simpl; reflexivity |].
    intros c e [Heq|[Heq|Hin]%elem_of_cons]%elem_of_cons.
    + injection Heq as -> <-. by specialize (Hr1 e eq_refl).
    + injection Heq as -> <-. by specialize (Hr2 e eq_refl).
    + apply elem_of_app in Hin as [Hin|Hin].
      * by specialize (Hs3 c e Hin).
      * apply list_elem_of_singleton in Hin. injection Hin as -> <-. by apply Hr4.
  - intros ->. destruct (Hok eq_refl) as [_ Hfinal]. intros t s Hs.
    rewrite Hfinal, lookup_foldr_delete in Hs. case_decide as Hst; [done |].
    rewrite Hz3, Hz2 in Hs. apply Hrange in Hs as [Hs Hnr].
    split; [done |]. split; [intros Hr; apply Hnr; by split |].
    destruct (Hkept t) as (e & Hkv & Hlv); [| done |].
    + apply elem_of_zmembers. exists s.
      apply Hrange. by split.
    + exists e. split; [congruence |]. eapply live_earlier; [| done]. lia.
Qed.

Lemma collect_stale_log (userTokens acc : list string) (w : World) :
  ∃ evs, log (collect_stale userTokens acc w).2 = log w ++ evs ∧ Forall reconciling evs.
Proof.
  revert acc w. induction userTokens as [|token rest IH]; intros acc w.
  - exists []. split; [by rewrite app_nil_r | constructor].
  - rewrite collect_stale_cons.
    destruct (isTokenExist token w) as [[ex|err] w1] eqn:Hex;
      apply isTokenExist_inv in Hex as (_ & _ & _ & (r & Hl1 & _) & _).
    + destruct (IH (if ex then acc else acc ++ [token]) w1) as (evs & Hl & Hevs).
      exists (EvRedis (Exists (getTokenKey token)) r :: evs).
      split; [by rewrite Hl, Hl1, <- app_assoc |]. by apply Forall_cons.
    + exists [EvRedis (Exists (getTokenKey token)) r]. split; [done |].
      by apply Forall_singleton.
Qed.

Lemma cleanupUserToken_log (userId : string) (w : World) :
  ∃ evs, log (cleanupUserToken userId w).2 = log w ++ evs ∧ Forall reconciling evs.
Proof.
  unfold cleanupUserToken. set (key := getUserTokenKey userId).
  unfold bind at 1.
  destruct (removeExpiredByScore key w) as [[[]|e1] w1] eqn:H1;
    apply removeExpiredByScore_inv in H1 as (_ & _ & _ & _ & r1 & Hl1 & _).
  2:{ eexists. split; [exact Hl1 |]. by repeat (apply Forall_cons; split; [done |]). }
  unfold bind at 1.
  destruct (cmd_StringSlice (ZRange key 0 (-1)) w1) as [[userTokens|e2] w2] eqn:H2;
    apply ZRange_all_inv in H2 as (_ & _ & _ & (r2 & Hl2 & _) & _).
  2:{ eexists. split; [simpl; rewrite Hl2, Hl1, <- app_assoc; reflexivity |].
      by repeat (apply Forall_cons; split; [done |]). }
  unfold bind at 1.
  destruct (collect_stale_log userTokens [] w2) as (evs3 & Hl3 & Hevs3).
  destruct (collect_stale userTokens [] w2) as [[stale|e3] w3] eqn:H3; simpl in Hl3.
  2:{ eexists. split; [simpl; rewrite Hl3, Hl2, Hl1, <- !app_assoc; reflexivity |].
      by repeat (apply Forall_cons; split; [done |]). }
  destruct (cmd_Err (ZRem key stale) w3) as [res w4] eqn:H4.
  apply ZRem_inv in H4 as (_ & _ & _ & _ & (r4 & Hl4 & _) & _).
  eexists. split; [simpl; rewrite Hl4, Hl3, Hl2, Hl1, <- !app_assoc; reflexivity |].
  repeat (apply Forall_cons; split; [done |]).
  apply Forall_app. split; [done |]. by apply Forall_singleton.
Qed.

(** ** Round trips that meet no fault *)

Lemma transit_faultless (w : World) :
  faultless w → (transit w).2 = None ∧ faultless (transit w).1.
Proof.
  unfold faultless, transit. destruct (sched w) as [|[dt f] rest] eqn:Hs; simpl.
  - by rewrite Hs.
  - intros [Hf Hrest]%Forall_cons. by simpl in Hf; subst.
Qed.

Lemma round_trip_faultless (c : cmd) (w : World) :
  faultless w →
  round_trip c w =
    ((exec c (transit w).1).1,
     record (EvRedis c (exec c (transit w).1).1) (exec c (transit w).1).2) ∧
  faultless (round_trip c w).2.
Proof.
  intros [Hn Hf]%transit_faultless. unfold round_trip.
  destruct (transit w) as [w1 f]; simpl in *; subst f.
  destruct (exec_fields c w1) as (_ & _ & Hs).
  destruct (exec c w1) as [r w2]; simpl in *. split; [done |].
  unfold faultless in *. simpl. by rewrite Hs.
Qed.

Lemma kv_lookup_None_later (w w' : World) (key : string) :
  kv w' ⊆ kv w → clock w ≤ clock w' → kv_lookup w key = None → kv_lookup w' key = None.
Proof.
  unfold kv_lookup. intros Hsub Hc Hw.
  destruct (kv w' !! key) as [e|] eqn:He; [| done].
  rewrite (lookup_weaken _ _ _ _ He Hsub) in Hw.
  destruct (live (clock w') e) eqn:Hl; [| done].
  assert (Hl' : live (clock w) e) by (eapply live_earlier; [done | by rewrite Hl]).
  by destruct (live (clock w) e).
Qed.

(** ** The token store calls *)

Lemma deleteToken_inv (tokens : list string) (w : World) (res : result ()) (w' : World) :
  deleteToken tokens w = (res, w') →
  frame w w' ∧ zsets w' = zsets w ∧
  ∃ r, round_trip (Unlink (getTokenKey <$> tokens)) w = (r, w') ∧
       log w' = log w ++ [EvRedis (Unlink (getTokenKey <$> tokens)) r] ∧
       (∀ e, r = RError e → res = Err e) ∧
       (∀ n, r = RInt n → ∀ t, t ∈ tokens → kv w' !! getTokenKey t = None).
Proof.
  unfold deleteToken. intros (r & Hrt & ->)%cmd_Err_inv.
  set (c := Unlink (getTokenKey <$> tokens)) in *.
  pose proof (round_trip_frame c w eq_refl) as Hf.
  pose proof (round_trip_zsets_readonly c w I) as Hz.
  pose proof (round_trip_log c w) as Hl.
  rewrite Hrt in Hf, Hz, Hl. simpl in Hf, Hz, Hl.
  split; [done |]. split; [done |]. exists r. split; [done |]. split; [done |].
  split; [by intros e -> |].
  intros n -> t Ht.
  apply round_trip_inv in Hrt as (w1 & _ & Hk1 & _ & _ & [(code & [=] & _)|(w3 & He & ->)]).
  simpl in He. destruct (getTokenKey <$> tokens) as [|k ks] eqn:Hks; [done |].
  injection He as _ <-. simpl. rewrite Hk1.
  change (delete k (foldr delete (kv w) ks)) with (foldr delete (kv w) (k :: ks)).
  rewrite lookup_foldr_delete, decide_True; [done |].
  rewrite <- Hks. by apply list_elem_of_fmap_2.
Qed.

Lemma loadToken_inv (token : string) (w : World) (res : result string) (w' : World) :
  loadToken token w = (res, w') →
  clock w ≤ clock w' ∧ kv w' = kv w ∧ zsets w' = zsets w ∧
  ∃ r, round_trip (Get (getTokenKey token)) w = (r, w') ∧
       log w' = log w ++ [EvRedis (Get (getTokenKey token)) r] ∧
       match res with
       | Ok data =>
           r = RBulk data ∧
           ∃ e, kv w !! getTokenKey token = Some e ∧ e_value e = data ∧ live (clock w) e
       | Err err =>
           (r = RNil ∧ err = ErrTokenNotFound) ∨ (∃ code, r = RError err ∧ err = IOErr code)
       end.
Proof.
  unfold loadToken, cmd_String. set (c := Get (getTokenKey token)).
  destruct (round_trip c w) as [r w2] eqn:Hrt.
  pose proof (round_trip_clock c w) as Hc.
  pose proof (round_trip_kv_readonly c w I) as Hk.
  pose proof (round_trip_zsets_readonly c w I) as Hz.
  pose proof (round_trip_log c w) as Hl.
  rewrite Hrt in Hc, Hk, Hz, Hl. simpl in Hc, Hk, Hz, Hl.
  pose proof Hrt as Hrt'.
  apply round_trip_inv in Hrt as (w1 & Hc1 & Hk1 & _ & _ & [(code & -> & ->)|(w3 & He & ->)]).
  - simpl. intros [= <- <-].
    split; [done |]. split; [done |]. split; [done |]. eexists. split; [done |].
    split; [done |]. right. by exists code.
  - simpl in He. unfold kv_lookup in He. rewrite Hk1 in He.
    destruct (kv w !! getTokenKey token) as [e|] eqn:Hkv.
    + destruct (live (clock w1) e) eqn:Hlive; injection He as <- <-; simpl; intros [= <- <-];
        (split; [done |]; split; [done |]; split; [done |]; eexists; (split; [done |]);
         (split; [done |])).
      * split; [done |]. exists e. split; [done |]. split; [done |].
        eapply live_earlier; [exact Hc1 | by rewrite Hlive].
      * by left.
    + injection He as <- <-. simpl. intros [= <- <-].
      split; [done |]. split; [done |]. split; [done |]. eexists. split; [done |].
      split; [done |]. by left.
Qed.

Lemma ZScore_inv (key member : string) (w : World) (res : result Z) (w' : World) :
  cmd_Float (ZScore key member) w = (res, w') →
  clock w ≤ clock w' ∧ kv w' = kv w ∧ zsets w' = zsets w ∧
  ∃ r, round_trip (ZScore key member) w = (r, w') ∧
       log w' = log w ++ [EvRedis (ZScore key member) r] ∧
       match res with
       | Ok s => r = RScore s ∧ zset_of (zsets w) key !! member = Some s
       | Err err =>
           (r = RNil ∧ err = RedisNil ∧ zset_of (zsets w) key !! member = None) ∨
           (∃ code, r = RError err ∧ err = IOErr code)
       end.
Proof.
  unfold cmd_Float. set (c := ZScore key member).
  destruct (round_trip c w) as [r w2] eqn:Hrt.
  pose proof (round_trip_clock c w) as Hc.
  pose proof (round_trip_kv_readonly c w I) as Hk.
  pose proof (round_trip_zsets_readonly c w I) as Hz.
  pose proof (round_trip_log c w) as Hl.
  rewrite Hrt in Hc, Hk, Hz, Hl. simpl in Hc, Hk, Hz, Hl.
  pose proof Hrt as Hrt'.
  apply round_trip_inv in Hrt as (w1 & _ & _ & Hz1 & _ & [(code & -> & ->)|(w3 & He & ->)]).
  - simpl. intros [= <- <-].
    split; [done |]. split; [done |]. split; [done |]. eexists. split; [done |].
    split; [done |]. right. by exists code.
  - simpl in He. rewrite Hz1 in He.
    destruct (zset_of (zsets w) key !! member) as [s|] eqn:Hm;
      injection He as <- <-; simpl; intros [= <- <-];
      (split; [done |]; split; [done |]; split; [done |]; eexists; (split; [done |]);
       (split; [done |])).
    + done.
    + by left.
Qed.

(** [loadUserToken] once its reconciliation pass is over. *)
Lemma lookup_user_token_inv (userId tokenString : string) (w : World)
  (res : result bUserTokenInfo) (w' : World) :
  lookup_user_token userId tokenString w = (res, w') →
  frame w w' ∧ zsets w' = zsets w ∧
  ∀ v, res = Ok v →
    TokenString v = tokenString ∧
    is_Some (zset_of (zsets w) (getUserTokenKey userId) !! tokenString) ∧
    ∃ e, kv w !! getTokenKey tokenString = Some e ∧ e_value e = TokenData v ∧
         live (clock w) e.
Proof.
  unfold lookup_user_token.
  destruct (cmd_Float _ w) as [[s|err] w2] eqn:Hz;
    apply ZScore_inv in Hz as (Hc2 & Hk2 & Hz2 & r2 & _ & Hl2 & Hres).
  - unfold bind. destruct (loadToken tokenString w2) as [[data|err] w3] eqn:Hload;
      apply loadToken_inv in Hload as (Hc3 & Hk3 & Hz3 & r3 & _ & Hl3 & Hres3); intros [= <- <-].
    + split; [| split; [congruence |]].
      { split; [lia | by rewrite Hk3, Hk2 | apply index_shrinks_eq; congruence |].
        eexists. by rewrite Hl3, Hl2, <- app_assoc. }
      intros v [= <-]. simpl. split; [done |]. destruct Hres as [_ Hm].
      split; [by eexists |].
      destruct Hres3 as (_ & e & Hkv & Hval & Hlv). exists e.
      split; [congruence |]. split; [done |]. by eapply live_earlier.
    + split; [| split; [congruence | done]].
      split; [lia | by rewrite Hk3, Hk2 | apply index_shrinks_eq; congruence |].
      eexists. by rewrite Hl3, Hl2, <- app_assoc.
  - assert (Hf2 : frame w w2).
    { split; [done | by rewrite Hk2 | by apply index_shrinks_eq | by eexists]. }
    destruct (is_redis_nil err); intros [= <- <-]; [| done].
    unfold discard. simpl. destruct (deleteToken [tokenString] w2) as [rd wd] eqn:Hd.
    apply deleteToken_inv in Hd as (Hfd & Hzd & _). simpl.
    split; [by eapply frame_trans |]. split; [congruence | done].
Qed.

Lemma discard_cleanup_inv (userId : string) (w : World) :
  let w1 := (discard (cleanupUserToken userId) w).2 in
  frame w w1 ∧ kv w1 = kv w ∧
  (∀ key, key ≠ getUserTokenKey userId → zset_of (zsets w1) key = zset_of (zsets w) key).
Proof.
  unfold discard. simpl. destruct (cleanupUserToken userId w) as [res w1] eqn:Hcl.
  apply cleanupUserToken_inv in Hcl as (Hc & Hk & Hi & Hz & (evs & Hl & _) & _). simpl.
  split; [| done]. split; [done | by rewrite Hk | done | by eexists].
Qed.

Lemma loadUserToken_inv (userId tokenString : string) (w : World)
  (res : result bUserTokenInfo) (w' : World) :
  loadUserToken userId tokenString w = (res, w') →
  frame w w' ∧
  ∀ v, res = Ok v →
    TokenString v = tokenString ∧
    is_Some (zset_of (zsets w) (getUserTokenKey userId) !! tokenString) ∧
    ∃ e, kv w !! getTokenKey tokenString = Some e ∧ e_value e = TokenData v ∧
         live (clock w) e.
Proof.
  unfold loadUserToken, bind. unfold discard at 1.
  destruct (discard_cleanup_inv userId w) as (Hf1 & Hk1 & _).
  unfold discard in Hf1, Hk1. simpl in Hf1, Hk1.
  set (w1 := (cleanupUserToken userId w).2) in *.
  intros (Hf2 & Hz2 & Hres)%lookup_user_token_inv.
  split; [by eapply frame_trans |].
  intros v Hv. destruct (Hres v Hv) as (Ht & [s Hm] & e & Hkv & Hval & Hlv).
  split; [done |]. split; [exists s; by apply Hf1 |].
  exists e. split; [congruence |]. split; [done |].
  eapply live_earlier; [| done]. by destruct Hf1.
Qed.

(** ** Listing *)

Lemma resolve_each_resolves (userId : string) (tokenStringList : list string)
  (acc : list bUserTokenInfo) (w : World) :
  ∃ views, (resolve_each userId tokenStringList acc w).1 = acc ++ views ∧
           resolves userId w tokenStringList views
             (resolve_each userId tokenStringList acc w).2.
Proof.
  revert acc w. induction tokenStringList as [|t ts IH]; intros acc w; simpl.
  - exists []. split; [by rewrite app_nil_r | constructor].
  - destruct (loadUserToken userId t w) as [[v|err] w1] eqn:Hload.
    + destruct (IH (acc ++ [v]) w1) as (views & Hout & Hres).
      exists (v :: views). split; [by rewrite Hout, <- app_assoc |].
      by eapply resolves_keep.
    + destruct (IH acc w1) as (views & Hout & Hres).
      exists views. split; [done |]. by eapply resolves_skip.
Qed.

Lemma resolves_sound (userId : string) (w : World) (ts : list string)
  (views : list bUserTokenInfo) (w' : World) :
  resolves userId w ts views w' →
  frame w w' ∧
  TokenString <$> views `sublist_of` ts ∧
  ∀ v, v ∈ views →
    is_Some (zset_of (zsets w) (getUserTokenKey userId) !! TokenString v) ∧
    ∃ e, kv w !! getTokenKey (TokenString v) = Some e ∧ e_value e = TokenData v ∧
         live (clock w) e.
Proof.
  induction 1 as [w|w t err w1 ts views w' Hload _ (Hf & Hsub & IH)
                 |w t v w1 ts views w' Hload _ (Hf & Hsub & IH)].
  - split; [apply frame_refl |]. split; [done |]. intros v Hv. by apply elem_of_nil in Hv.
  - apply loadUserToken_inv in Hload as (Hf1 & _).
    split; [by eapply frame_trans |]. split; [by apply sublist_cons |].
    intros v Hv. destruct (IH v Hv) as ([s Hm] & e & Hkv & Hval & Hlv).
    split; [exists s; by apply Hf1 |]. exists e.
    split; [by eapply lookup_weaken, Hf1 |]. split; [done |].
    eapply live_earlier; [| done]. by destruct Hf1.
  - apply loadUserToken_inv in Hload as (Hf1 & Hv1).
    destruct (Hv1 v eq_refl) as (Ht & Hm1 & He1).
    split; [by eapply frame_trans |]. split; [simpl; rewrite Ht; by apply sublist_skip |].
    intros v' [->|Hv]%elem_of_cons; [by rewrite Ht |].
    destruct (IH v' Hv) as ([s Hm] & e & Hkv & Hval & Hlv).
    split; [exists s; by apply Hf1 |]. exists e.
    split; [by eapply lookup_weaken, Hf1 |]. split; [done |].
    eapply live_earlier; [| done]. by destruct Hf1.
Qed.

Lemma loadUserTokenList_inv (userId : string) (w : World)
  (res : result (list bUserTokenInfo)) (w' : World) :
  loadUserTokenList userId w = (res, w') →
  let w1 := (discard (cleanupUserToken userId) w).2 in
  let key := getUserTokenKey userId in
  match cmd_StringSlice (ZRange key 0 (-1)) w1 with
  | (Ok members, w2) =>
      members = zmembers (zset_of (zsets w1) key) ∧
      ∃ views, res = Ok views ∧ resolves userId w2 members views w'
  | (Err err, w2) => res = Err err ∧ w' = w2
  end.
Proof.
  unfold loadUserTokenList, list_user_tokens, bind. unfold discard at 1. simpl.
  unfold discard. simpl. set (w1 := (cleanupUserToken userId w).2).
  destruct (cmd_StringSlice _ w1) as [[members|err] w2] eqn:Hr; [| by intros [= <- <-]].
  apply ZRange_all_inv in Hr as (_ & _ & _ & _ & Hm).
  destruct (resolve_each_resolves userId members [] w2) as (views & Hout & Hres).
  destruct (resolve_each userId members [] w2) as [out w3]. simpl in *.
  intros [= <- <-]. split; [by apply Hm |]. exists views. by subst.
Qed.

(** ** Issuance *)

Lemma saveToken_inv (token value : string) (d : Z) (w : World)
  (res : result bool) (w' : World) :
  saveToken token value d w = (res, w') →
  clock w ≤ clock w' ∧ zsets w' = zsets w ∧
  ∃ r, round_trip (SetNX (getTokenKey token) value d) w = (r, w') ∧
       log w' = log w ++ [EvRedis (SetNX (getTokenKey token) value d) r] ∧
       match res with
       | Ok true =>
           r = RBool true ∧
           ∃ ex, setnx_expire (clock w') d = Some ex ∧
                 kv w' = <[getTokenKey token := {| e_value := value; e_expire := ex |}]> (kv w)
       | Ok false => r = RBool false ∧ kv w' = kv w
       | Err err => r = RError err ∧ kv w' = kv w
       end.
Proof.
  unfold saveToken, bind, cmd_Bool, ret. set (c := SetNX (getTokenKey token) value d).
  destruct (round_trip c w) as [r w2] eqn:Hrt.
  pose proof (round_trip_clock c w) as Hc.
  pose proof (round_trip_zsets_readonly c w I) as Hz.
  pose proof (round_trip_log c w) as Hl.
  rewrite Hrt in Hc, Hz, Hl. simpl in Hc, Hz, Hl.
  pose proof Hrt as Hrt'.
  apply round_trip_inv in Hrt as (w1 & _ & Hk1 & _ & _ & [(code & -> & ->)|(w3 & He & ->)]).
  - simpl. intros [= <- <-]. split; [done |]. split; [done |]. by eexists.
  - simpl in He. destruct (setnx_expire (clock w1) d) as [ex|] eqn:Hex.
    + destruct (kv_lookup w1 (getTokenKey token)); injection He as <- <-; simpl;
        intros [= <- <-]; (split; [done |]; split; [done |]; eexists; (split; [done |]);
                           (split; [done |])).
      * done.
      * split; [done |]. exists ex. simpl. by rewrite Hk1.
    + injection He as <- <-. simpl. intros [= <- <-].
      split; [done |]. split; [done |]. by eexists.
Qed.

Lemma ZAdd_inv (key member : string) (score : Z) (w : World) (res : result ()) (w' : World) :
  cmd_Err (ZAdd key member score) w = (res, w') →
  clock w ≤ clock w' ∧ kv w' = kv w ∧
  ∃ r, log w' = log w ++ [EvRedis (ZAdd key member score) r] ∧
       match res with
       | Ok _ =>
           (∃ n, r = RInt n) ∧
           zsets w' = <[key := <[member := score]> (zset_of (zsets w) key)]> (zsets w)
       | Err err => r = RError err ∧ zsets w' = zsets w
       end.
Proof.
  intros (r & Hrt & ->)%cmd_Err_inv. set (c := ZAdd key member score) in *.
  pose proof (round_trip_clock c w) as Hc.
  pose proof (round_trip_kv_readonly c w I) as Hk.
  pose proof (round_trip_log c w) as Hl.
  rewrite Hrt in Hc, Hk, Hl. simpl in Hc, Hk, Hl.
  split; [done |]. split; [done |]. exists r. split; [done |].
  apply round_trip_inv in Hrt as (w1 & _ & _ & Hz1 & _ & [(code & -> & ->)|(w3 & He & ->)]).
  - by simpl.
  - simpl in He. injection He as <- <-. simpl. rewrite Hz1. split; [by eexists | done].
Qed.

Lemma issue_attempt_attempt (key : string) (genToken : nat → result string)
  (value : string) (expiresIn : Z) (i : nat) (w : World)
  (res : result (option string)) (w' : World) :
  issue_attempt key genToken value expiresIn i w = (res, w') →
  attempt key genToken value expiresIn i w res w'.
Proof.
  unfold issue_attempt, bind at 1, time_Now. unfold bind at 1, call_gen.
  destruct (genToken i) as [token|err] eqn:Hgen.
  2:{ intros [= <- <-]. by constructor. }
  set (w0 := record (EvGen (Ok token)) (record (EvNow (clock w)) w)).
  set (d := time.Sub (time.Add (clock w) expiresIn) (clock w)).
  unfold bind.
  destruct (saveToken token value d w0) as [[ok|err] w1] eqn:Hsave;
    apply saveToken_inv in Hsave as (Hc1 & Hz1 & r1 & _ & Hl1 & Hres1).
  2:{ intros [= <- <-]. destruct Hres1 as [-> Hk1].
      eapply attempt_store_error; try done.
      by rewrite Hl1; simpl; rewrite <- !app_assoc. }
  destruct ok.
  2:{ unfold ret. intros [= <- <-]. destruct Hres1 as [-> Hk1].
      eapply attempt_collision; try done.
      by rewrite Hl1; simpl; rewrite <- !app_assoc. }
  destruct Hres1 as (-> & ex & Hex & Hk1).
  destruct (cmd_Err _ w1) as [[[]|err] w2] eqn:Hadd;
    apply ZAdd_inv in Hadd as (Hc2 & Hk2 & r2 & Hl2 & Hres2).
  - intros [= <- <-]. destruct Hres2 as [[n ->] Hz2].
    eapply (attempt_issued _ _ _ _ _ _ token n {| e_value := value; e_expire := ex |});
      try done.
    + by rewrite Hl2, Hl1; simpl; rewrite <- !app_assoc.
    + by rewrite Hk2, Hk1.
    + by rewrite Hz2, Hz1.
    + simpl in *. lia.
  - intros [= <- <-]. destruct Hres2 as [-> Hz2].
    unfold discard. simpl.
    destruct (deleteToken [token] w2) as [rd w3] eqn:Hdel.
    apply deleteToken_inv in Hdel as ([Hc3 Hk3 _ _] & Hz3 & r3 & _ & Hl3 & _ & Hgone). simpl.
    eapply (attempt_index_error _ _ _ _ _ _ token err r3
              {| e_value := value; e_expire := ex |}); try done.
    + by rewrite Hl3, Hl2, Hl1; simpl; rewrite <- !app_assoc.
    + by rewrite Hk2, Hk1 in Hk3.
    + intros n Hn. apply (Hgone n Hn). by apply list_elem_of_singleton.
    + by rewrite Hz3, Hz2, Hz1.
    + simpl in *. lia.
Qed.

Lemma issue_attempt_collision (key : string) (genToken : nat → result string)
  (value : string) (expiresIn : Z) (i : nat) (w w1 : World) :
  issue_attempt key genToken value expiresIn i w = (Ok None, w1) ↔
  ∃ token, genToken i = Ok token ∧
    saveToken token value (time.Sub (time.Add (clock w) expiresIn) (clock w))
      (record (EvGen (Ok token)) (record (EvNow (clock w)) w)) = (Ok false, w1).
Proof.
  unfold issue_attempt, bind at 1, time_Now. unfold bind at 1, call_gen.
  destruct (genToken i) as [token|err] eqn:Hgen.
  2:{ split; [done | by intros (? & [=] & _)]. }
  unfold bind.
  destruct (saveToken token value _ _) as [[[|]|err] w2] eqn:Hsave.
  - split; [| by intros (? & [= <-] & Hs); rewrite Hsave in Hs].
    by destruct (cmd_Err _ w2) as [[[]|?] ?].
  - unfold ret. split.
    + intros [= <-]. by exists token.
    + intros (? & [= <-] & Hs). rewrite Hsave in Hs. by injection Hs as <-.
  - split; [done | by intros (? & [= <-] & Hs); rewrite Hsave in Hs].
Qed.

Lemma collisions_frame (genToken : nat → result string) (value : string) (expiresIn : Z)
  (i : nat) (w : World) (j : nat) (w' : World) :
  collisions genToken value expiresIn i w j w' →
  (i ≤ j)%nat ∧ clock w ≤ clock w' ∧ kv w' = kv w ∧ zsets w' = zsets w ∧
  ∃ evs, log w' = log w ++ evs ∧ Forall colliding evs.
Proof.
  induction 1 as [i w|i w token w1 j w' Hgen Hsave _ (Hij & Hc & Hk & Hz & evs & Hl & Hevs)].
  - split; [lia |]. split; [lia |]. split; [done |]. split; [done |].
    exists []. split; [by rewrite app_nil_r | constructor].
  - apply saveToken_inv in Hsave as (Hc1 & Hz1 & r & _ & Hl1 & -> & Hk1). simpl in *.
    split; [lia |]. split; [lia |]. split; [congruence |]. split; [congruence |].
    eexists. split; [rewrite Hl, Hl1, <- !app_assoc; simpl; reflexivity |].
    by repeat (apply Forall_cons; split; [done |]).
Qed.

Lemma issue_loop_collisions (key : string) (genToken : nat → result string)
  (value : string) (expiresIn : Z) (fuel i : nat) (w : World) (j : nat) (w' : World) :
  collisions genToken value expiresIn i w j w' →
  issue_loop ((j - i) + fuel) key genToken value expiresIn i w =
  issue_loop fuel key genToken value expiresIn j w'.
Proof.
  induction 1 as [i w|i w token w1 j w' Hgen Hsave Hcol IH].
  - by rewrite Nat.sub_diag.
  - apply collisions_frame in Hcol as Hij. destruct Hij as [Hij _].
    replace (j - i + fuel)%nat with (S (j - S i + fuel)) by lia. simpl.
    assert (Ha : issue_attempt key genToken value expiresIn i w = (Ok None, w1)).
    { apply issue_attempt_collision. by exists token. }
    by rewrite Ha.
Qed.

(** Every way the loop can have gone after [fuel] turns. *)
Lemma issue_loop_inv (key : string) (genToken : nat → result string)
  (value : string) (expiresIn : Z) (fuel i : nat) (w : World) :
  match issue_loop fuel key genToken value expiresIn i w with
  | None => ∃ w', collisions genToken value expiresIn i w (i + fuel) w'
  | Some (r, w') =>
      ∃ j wj, (i ≤ j < i + fuel)%nat ∧ collisions genToken value expiresIn i w j wj ∧
              issue_attempt key genToken value expiresIn j wj =
                (match r with Ok token => Ok (Some token) | Err err => Err err end, w')
  end.
Proof.
  revert i w. induction fuel as [|fuel IH]; intros i w; simpl.
  - exists w. rewrite Nat.add_0_r. constructor.
  - destruct (issue_attempt key genToken value expiresIn i w) as [[[token|]|err] w1] eqn:Ha.
    + exists i, w. split; [lia |]. split; [constructor | done].
    + apply issue_attempt_collision in Ha as (token & Hgen & Hsave).
      specialize (IH (S i) w1).
      destruct (issue_loop fuel key genToken value expiresIn (S i) w1) as [[r w']|].
      * destruct IH as (j & wj & Hj & Hcol & Hlast). exists j, wj.
        split; [lia |]. split; [by eapply collisions_more | done].
      * destruct IH as (w' & Hcol). exists w'.
        replace (i + S fuel)%nat with (S i + fuel)%nat by lia. by eapply collisions_more.
    + exists i, w. split; [lia |]. split; [constructor | done].
Qed.

Lemma loadUserTokenList_views (userId : string) (w : World)
  (views : list bUserTokenInfo) (w' : World) :
  loadUserTokenList userId w = (Ok views, w') →
  ∀ v, v ∈ views →
    is_Some (zset_of (zsets w) (getUserTokenKey userId) !! TokenString v) ∧
    ∃ e, kv w !! getTokenKey (TokenString v) = Some e ∧ e_value e = TokenData v ∧
         live (clock w) e.
Proof.
  intros Hlist%loadUserTokenList_inv. cbv zeta in Hlist.
  destruct (discard_cleanup_inv userId w) as ([Hc1 _ Hi1 _] & Hk1 & _).
  set (w1 := (discard (cleanupUserToken userId) w).2) in *.
  destruct (cmd_StringSlice (ZRange (getUserTokenKey userId) 0 (-1)) w1)
    as [[members|err] w2] eqn:Hr; [| by destruct Hlist].
  apply ZRange_all_inv in Hr as (Hc2 & Hk2 & Hz2 & _ & _).
  destruct Hlist as (_ & views' & [= <-] & Hres).
  apply resolves_sound in Hres as (_ & _ & Hviews).
  intros v Hv. destruct (Hviews v Hv) as ([s Hm] & e & Hkv & Hval & Hlv).
  split.
  - exists s. apply Hi1. by rewrite <- Hz2.
  - exists e. split; [congruence |]. split; [done |].
    eapply live_earlier; [| done]. lia.
Qed.

(** * The claims *)

(** ** C5: the fast path of reconciliation *)

(** C5, as stated, fails: at five seconds past the epoch the fast path
    leaves the entry "old" in place although its score, -1, is not greater
    than the current epoch time. *)
Lemma removeExpiredByScore_keeps_negative_score :
  let key := getUserTokenKey "u" in
  let w' := (removeExpiredByScore key w_negative_score).2 in
  removeExpiredByScore key w_negative_score = (Ok (), w') ∧
  zset_of (zsets w_negative_score) key !! "old" = Some (-1) ∧
  -1 ≤ time.Unix (clock w_negative_score) ∧
  zset_of (zsets w') key !! "old" = Some (-1).
Proof. vm_compute. repeat split; congruence. Qed.

(** C5, amended: when the fast path succeeds it has removed, in one round
    trip, exactly the entries of the user's index whose score lies between 0
    and the current epoch second, both included; every other entry stays;
    the token store is neither read nor written. *)
Theorem removeExpiredByScore_range (key : string) (w w' : World) :
  removeExpiredByScore key w = (Ok (), w') →
  (∀ t s, zset_of (zsets w') key !! t = Some s ↔
          zset_of (zsets w) key !! t = Some s ∧ ¬ (0 ≤ s ≤ time.Unix (clock w))) ∧
  kv w' = kv w ∧
  ∃ n, log w' = log w ++ [EvNow (clock w);
                          EvRedis (ZRemRangeByScore key 0 (time.Unix (clock w))) (RInt n)].
Proof.
  intros (Hrange & Hk & _ & Hl)%removeExpiredByScore_ok.
  split; [| done]. intros t s. rewrite Hrange. split.
  - intros [Hs Hn]. split; [done |]. intros Hr. by apply Hn.
  - intros [Hs Hn]. split; [done |]. by intros [_ Hr].
Qed.

Lemma removeExpiredByScore_range_witness :
  let key := getUserTokenKey "u" in
  let w' := (removeExpiredByScore key w_mixed_scores).2 in
  (∀ t s, zset_of (zsets w') key !! t = Some s ↔
          zset_of (zsets w_mixed_scores) key !! t = Some s ∧
          ¬ (0 ≤ s ≤ time.Unix (clock w_mixed_scores))) ∧
  kv w' = kv w_mixed_scores ∧
  ∃ n, log w' = log w_mixed_scores ++
         [EvNow (clock w_mixed_scores);
          EvRedis (ZRemRangeByScore key 0 (time.Unix (clock w_mixed_scores))) (RInt n)].
Proof.
  intros key w'. apply (removeExpiredByScore_range key w_mixed_scores w').
  vm_compute. reflexivity.
Defined.

(** ** C4: what reconciliation leaves in the index *)

(** C4, as stated, fails on both counts: the pass returns nil and leaves
    "old", whose score is not greater than the cleanup-time clock, and
    "brief", whose record no longer exists when the pass returns. *)
Lemma cleanupUserToken_survivor_not_live :
  let key := getUserTokenKey "u" in
  let w' := (cleanupUserToken "u" w_brief_record).2 in
  cleanupUserToken "u" w_brief_record = (Ok (), w') ∧
  (zset_of (zsets w') key !! "old" = Some (-1) ∧
   ¬ (time.Unix (clock w_brief_record) < -1)) ∧
  (zset_of (zsets w') key !! "brief" = Some 100 ∧
   kv_lookup w' (getTokenKey "brief") = None).
Proof. vm_compute. repeat split; congruence. Qed.

(** C4, amended: after a direct [cleanupUserToken] that returns nil, every
    token remaining in the user's index was there before, has a score that
    is either greater than the cleanup-time epoch second or below zero, and
    has a store record that was alive at the cleanup-time clock; and every
    view a later [loadUserTokenList] returns is of a member whose store
    record, with that payload, was alive when the listing began. *)
Theorem cleanupUserToken_survivors (userId : string) (w w' : World) :
  cleanupUserToken userId w = (Ok (), w') →
  (∀ t s, zset_of (zsets w') (getUserTokenKey userId) !! t = Some s →
     zset_of (zsets w) (getUserTokenKey userId) !! t = Some s ∧
     (time.Unix (clock w) < s ∨ s < 0) ∧
     ∃ e, kv w' !! getTokenKey t = Some e ∧ live (clock w) e) ∧
  (∀ w2 views w3, loadUserTokenList userId w2 = (Ok views, w3) →
     ∀ v, v ∈ views →
       is_Some (zset_of (zsets w2) (getUserTokenKey userId) !! TokenString v) ∧
       ∃ e, kv w2 !! getTokenKey (TokenString v) = Some e ∧
            e_value e = TokenData v ∧ live (clock w2) e).
Proof.
  intros (_ & Hk & _ & _ & _ & Hok)%cleanupUserToken_inv. split.
  - intros t s Hs. destruct (Hok eq_refl t s Hs) as (Hm & Hr & e & Hkv & Hlv).
    split; [done |]. split; [lia |]. exists e. by rewrite Hk.
  - intros w2 views w3 Hlist. by eapply loadUserTokenList_views.
Qed.

Lemma cleanupUserToken_survivors_witness :
  let key := getUserTokenKey "u" in
  let w' := (cleanupUserToken "u" w_brief_record).2 in
  (∀ t s, zset_of (zsets w') key !! t = Some s →
     zset_of (zsets w_brief_record) key !! t = Some s ∧
     (time.Unix (clock w_brief_record) < s ∨ s < 0) ∧
     ∃ e, kv w' !! getTokenKey t = Some e ∧ live (clock w_brief_record) e) ∧
  (∀ w2 views w3, loadUserTokenList "u" w2 = (Ok views, w3) →
     ∀ v, v ∈ views →
       is_Some (zset_of (zsets w2) key !! TokenString v) ∧
       ∃ e, kv w2 !! getTokenKey (TokenString v) = Some e ∧
            e_value e = TokenData v ∧ live (clock w2) e).
Proof.
  intros key w'. apply (cleanupUserToken_survivors "u" w_brief_record w').
  vm_compute. reflexivity.
Defined.

(** ** C3: one kind of not-found *)

Lemma exec_no_IOErr (c : cmd) (w : World) (code : nat) : (exec c w).1 ≠ RError (IOErr code).
Proof. destruct c; simpl; repeat case_match; simplify_eq/=; done. Qed.

Lemma faultless_reply (c : cmd) (w : World) (r : reply) (w' : World) :
  faultless w → round_trip c w = (r, w') →
  faultless w' ∧ ∀ code, r ≠ RError (IOErr code).
Proof.
  intros Hf Hrt. destruct (round_trip_faultless c w Hf) as [Heq Hf'].
  rewrite Hrt in Hf'. split; [done |].
  rewrite Heq in Hrt. injection Hrt as <- _. apply exec_no_IOErr.
Qed.

Lemma lookup_user_token_absent (userId tokenString : string) (w : World) :
  faultless w →
  zset_of (zsets w) (getUserTokenKey userId) !! tokenString = None →
  ∃ n w', lookup_user_token userId tokenString w = (Err ErrTokenNotFound, w') ∧
          log w' = log w ++ [EvRedis (ZScore (getUserTokenKey userId) tokenString) RNil;
                             EvRedis (Unlink [getTokenKey tokenString]) (RInt n)] ∧
          kv w' !! getTokenKey tokenString = None.
Proof.
  intros Hf Hm. unfold lookup_user_token.
  destruct (cmd_Float _ w) as [[s|err] w2] eqn:Hz;
    apply ZScore_inv in Hz as (_ & _ & _ & r2 & Hrt2 & Hl2 & Hres).
  { destruct Hres as [_ Hs]. congruence. }
  apply (faultless_reply _ _ _ _ Hf) in Hrt2 as [Hf2 Hno].
  destruct Hres as [(-> & -> & _)|(code & -> & ->)]; [| by destruct (Hno code)].
  simpl. unfold discard.
  destruct (deleteToken [tokenString] w2) as [rd w3] eqn:Hdel.
  apply deleteToken_inv in Hdel as (_ & _ & r3 & Hrt3 & Hl3 & _ & Hgone). simpl in *.
  pose proof Hrt3 as Hrt3'.
  apply (faultless_reply _ _ _ _ Hf2) in Hrt3' as [_ Hno3].
  apply round_trip_inv in Hrt3 as (w4 & _ & _ & _ & _ & [(code & -> & _)|(w5 & He & ->)]);
    [by destruct (Hno3 code) |].
  simpl in He. injection He as <- _.
  eexists _, _. split; [done |]. split; [by rewrite Hl3, Hl2, <- app_assoc |].
  eapply Hgone; [done |]. by apply list_elem_of_singleton.
Qed.

Lemma lookup_user_token_record_gone (userId tokenString : string) (s : Z) (w : World) :
  faultless w →
  zset_of (zsets w) (getUserTokenKey userId) !! tokenString = Some s →
  kv_lookup w (getTokenKey tokenString) = None →
  ∃ w', lookup_user_token userId tokenString w = (Err ErrTokenNotFound, w') ∧
        log w' = log w ++ [EvRedis (ZScore (getUserTokenKey userId) tokenString) (RScore s);
                           EvRedis (Get (getTokenKey tokenString)) RNil].
Proof.
  intros Hf Hm Hgone. unfold lookup_user_token.
  destruct (cmd_Float _ w) as [[s'|err] w2] eqn:Hz;
    apply ZScore_inv in Hz as (Hc2 & Hk2 & _ & r2 & Hrt2 & Hl2 & Hres).
  2:{ apply (faultless_reply _ _ _ _ Hf) in Hrt2 as [_ Hno].
      destruct Hres as [(_ & _ & ?)|(code & -> & ->)]; [congruence | by destruct (Hno code)]. }
  destruct Hres as [-> Hs]. assert (s' = s) as -> by congruence.
  apply (faultless_reply _ _ _ _ Hf) in Hrt2 as [Hf2 _].
  unfold bind. destruct (loadToken tokenString w2) as [[data|err] w3] eqn:Hload;
    apply loadToken_inv in Hload as (Hc3 & _ & _ & r3 & Hrt3 & Hl3 & Hres3).
  - exfalso. destruct Hres3 as (_ & e & Hkv & _ & Hlv).
    unfold kv_lookup in Hgone. rewrite <- Hk2, Hkv in Hgone.
    assert (Hlw : live (clock w) e) by (eapply live_earlier; [exact Hc2 | done]).
    by destruct (live (clock w) e).
  - apply (faultless_reply _ _ _ _ Hf2) in Hrt3 as [_ Hno].
    destruct Hres3 as [[-> ->]|(code & -> & ->)]; [| by destruct (Hno code)].
    exists w3. split; [done |]. by rewrite Hl3, Hl2, <- app_assoc.
Qed.

(** C3: [loadUserToken] fails with the one [ErrTokenNotFound] both when
    the token is not a member of the user's index (at the call, or once the
    reconciliation pass is over) and when it is a member whose store record
    is gone; in the first case it sends, before returning, an UNLINK of that
    token's record. *)
Theorem loadUserToken_NotFound_uniform (userId tokenString : string) (w : World) :
  let key := getUserTokenKey userId in
  let w1 := (discard (cleanupUserToken userId) w).2 in
  faultless w1 →
  ((zset_of (zsets w) key !! tokenString = None ∨
    zset_of (zsets w1) key !! tokenString = None) →
   ∃ n w', loadUserToken userId tokenString w = (Err ErrTokenNotFound, w') ∧
           log w' = log w1 ++ [EvRedis (ZScore key tokenString) RNil;
                               EvRedis (Unlink [getTokenKey tokenString]) (RInt n)] ∧
           kv w' !! getTokenKey tokenString = None) ∧
  (∀ s, zset_of (zsets w1) key !! tokenString = Some s →
        kv_lookup w1 (getTokenKey tokenString) = None →
   ∃ w', loadUserToken userId tokenString w = (Err ErrTokenNotFound, w') ∧
         log w' = log w1 ++ [EvRedis (ZScore key tokenString) (RScore s);
                             EvRedis (Get (getTokenKey tokenString)) RNil]).
Proof.
  intros key w1 Hf. split.
  - intros Hm. apply lookup_user_token_absent; [done |].
    destruct Hm as [Hm|Hm]; [| done].
    destruct (discard_cleanup_inv userId w) as ([_ _ Hi _] & _).
    destruct (zset_of (zsets w1) key !! tokenString) as [s|] eqn:Hs; [| done].
    apply Hi in Hs. by rewrite Hm in Hs.
  - intros s Hm Hgone. by apply lookup_user_token_record_gone.
Qed.

Lemma loadUserToken_NotFound_uniform_witness :
  let key := getUserTokenKey "u" in
  let w1 := (discard (cleanupUserToken "u") w_stale_member).2 in
  (∃ n w', loadUserToken "u" "x" w_stale_member = (Err ErrTokenNotFound, w') ∧
           log w' = log w1 ++ [EvRedis (ZScore key "x") RNil;
                               EvRedis (Unlink [getTokenKey "x"]) (RInt n)] ∧
           kv w' !! getTokenKey "x" = None) ∧
  (∃ w', loadUserToken "u" "m" w_stale_member = (Err ErrTokenNotFound, w') ∧
         log w' = log w1 ++ [EvRedis (ZScore key "m") (RScore 100);
                             EvRedis (Get (getTokenKey "m")) RNil]).
Proof.
  intros key w1.
  assert (Hf : faultless w1) by (vm_compute; constructor).
  split.
  - apply (loadUserToken_NotFound_uniform "u" "x" w_stale_member Hf).
    left. vm_compute. reflexivity.
  - apply (proj2 (loadUserToken_NotFound_uniform "u" "m" w_stale_member Hf) 100);
      vm_compute; reflexivity.
Defined.

(** ** Runs of [saveUserToken] *)

(** A call that returns went through a reconciliation pass, some turns
    that collided, and one last turn. *)
Lemma saveUserToken_run (fuel : nat) (userId : string) (genToken : nat → result string)
  (value : string) (expiresIn : Z) (w : World) (r : result string) (w' : World) :
  saveUserToken fuel userId genToken value expiresIn w = Some (r, w') →
  let w1 := (cleanupUserToken userId w).2 in
  ∃ j wj evs1 evs2,
    (j < fuel)%nat ∧
    kv w1 = kv w ∧ index_shrinks w w1 ∧ log w1 = log w ++ evs1 ∧ Forall reconciling evs1 ∧
    collisions genToken value expiresIn 0 w1 j wj ∧
    kv wj = kv w1 ∧ zsets wj = zsets w1 ∧ log wj = log w1 ++ evs2 ∧ Forall colliding evs2 ∧
    attempt (getUserTokenKey userId) genToken value expiresIn j wj (last_turn r) w'.
Proof.
  intros Hloop. cbv zeta. set (w1 := (cleanupUserToken userId w).2).
  unfold saveUserToken, discard in Hloop. simpl in Hloop.
  pose proof (issue_loop_inv (getUserTokenKey userId) genToken value expiresIn fuel 0 w1)
    as Hinv.
  fold w1 in Hloop. rewrite Hloop in Hinv. destruct Hinv as (j & wj & Hj & Hcol & Hlast).
  destruct (discard_cleanup_inv userId w) as ([_ _ Hi _] & Hk & _).
  destruct (cleanupUserToken_log userId w) as (evs1 & Hl1 & Hevs1).
  pose proof (collisions_frame _ _ _ _ _ _ _ Hcol) as (_ & _ & Hkj & Hzj & evs2 & Hl2 & Hevs2).
  exists j, wj, evs1, evs2.
  split; [lia |]. split; [done |]. split; [done |]. split; [done |]. split; [done |].
  split; [done |]. split; [done |]. split; [done |]. split; [done |]. split; [done |].
  by apply issue_attempt_attempt.
Qed.

Lemma Duration_Sub_Add (now d : Z) :
  time.is_Duration d → time.Sub (time.Add now d) now = d.
Proof.
  unfold time.is_Duration, time.Sub, time.Add. intros Hd.
  replace (now + d - now) with d by lia.
  rewrite !bool_decide_eq_false_2 by lia. done.
Qed.

(** ** C9: the TTL handed to the store and the score of the index entry *)

(** C9: when [saveUserToken] returns a token, the last four events of its
    trace are, in this order, a reading [now] of the clock, the generator
    call that produced the token, the [SetNX] of the token's record with
    exactly the requested duration, answered created, and the [ZAdd] of the
    token to the user's index with score [now + expiresIn] in epoch seconds;
    the index holds the token with that score. *)
Theorem saveUserToken_ttl_and_score (fuel : nat) (userId : string)
  (genToken : nat → result string) (value : string) (expiresIn : Z)
  (w : World) (token : string) (w' : World) :
  time.is_Duration expiresIn →
  saveUserToken fuel userId genToken value expiresIn w = Some (Ok token, w') →
  ∃ pre now n,
    log w' = pre ++ [EvNow now; EvGen (Ok token);
                     EvRedis (SetNX (getTokenKey token) value expiresIn) (RBool true);
                     EvRedis (ZAdd (getUserTokenKey userId) token
                                (time.Unix (now + expiresIn))) (RInt n)] ∧
    zset_of (zsets w') (getUserTokenKey userId) !! token = Some (time.Unix (now + expiresIn)).
Proof.
  intros Hd Hrun. apply saveUserToken_run in Hrun as (j & wj & _ & _ & _ & _ & _ & _ & _ &
    _ & _ & _ & _ & _ & Hatt).
  simpl in Hatt. inversion Hatt as [| | |token' n e w'' Hgen Hl He Hk Hz Hc|]; subst.
  rewrite Duration_Sub_Add in Hl by done. unfold time.Add in *.
  exists (log wj), (clock wj), n. split; [done |].
  by rewrite Hz, zset_of_insert, decide_True, lookup_insert_eq.
Qed.

Lemma saveUserToken_ttl_and_score_witness :
  ∃ w', saveUserToken 5 "u" gen_a_then_b "v" (2 * time.Second) w_taken_a = Some (Ok "b", w') ∧
  ∃ pre now n,
    log w' = pre ++ [EvNow now; EvGen (Ok "b");
                     EvRedis (SetNX (getTokenKey "b") "v" (2 * time.Second)) (RBool true);
                     EvRedis (ZAdd (getUserTokenKey "u") "b"
                                (time.Unix (now + 2 * time.Second))) (RInt n)] ∧
    zset_of (zsets w') (getUserTokenKey "u") !! "b" = Some (time.Unix (now + 2 * time.Second)).
Proof.
  eexists. split; [vm_compute; reflexivity |].
  eapply (saveUserToken_ttl_and_score 5 "u" gen_a_then_b "v" (2 * time.Second) w_taken_a "b").
  - vm_compute. split; discriminate.
  - vm_compute. reflexivity.
Defined.

(** ** C10: the generator fails *)

Lemma issue_loop_gen_error (key : string) (genToken : nat → result string)
  (value : string) (expiresIn : Z) (fuel i : nat) (w : World) (err : error) :
  genToken i = Err err →
  issue_loop (S fuel) key genToken value expiresIn i w =
  Some (Err err, record (EvGen (Err err)) (record (EvNow (clock w)) w)).
Proof.
  intros Hgen. simpl. unfold issue_attempt, bind, time_Now, call_gen. by rewrite Hgen.
Qed.

(** C10: a turn of the loop whose generator call fails ends the call at
    once with that error, after nothing but a reading of the clock; and
    whenever a failed generator call is in the trace of a [saveUserToken]
    that returned, that error is what it returned, the failed call is the
    last event, the store holds the records it held before, the index holds
    nothing it did not hold before, and every [SetNX] of the call was
    answered not created and no [ZAdd] was sent. *)
Theorem saveUserToken_generator_error (userId : string) (genToken : nat → result string)
  (value : string) (expiresIn : Z) :
  (∀ fuel i w err, genToken i = Err err →
     issue_loop (S fuel) (getUserTokenKey userId) genToken value expiresIn i w =
     Some (Err err, record (EvGen (Err err)) (record (EvNow (clock w)) w))) ∧
  (∀ fuel w r w',
     saveUserToken fuel userId genToken value expiresIn w = Some (r, w') →
     ∃ evs, log w' = log w ++ evs ∧
       ∀ err, EvGen (Err err) ∈ evs →
         r = Err err ∧ last evs = Some (EvGen (Err err)) ∧
         kv w' = kv w ∧ index_shrinks w w' ∧
         ∀ c rp, EvRedis c rp ∈ evs → adds c = true → rp = RBool false).
Proof.
  split; [intros; by apply issue_loop_gen_error |].
  intros fuel w r w' Hrun.
  apply saveUserToken_run in Hrun as (j & wj & evs1 & evs2 & _ & Hk1 & Hi1 & Hl1 & Hevs1 &
    _ & Hkj & Hzj & Hlj & Hevs2 & Hatt).
  set (w1 := (cleanupUserToken userId w).2) in *.
  assert (Hpre : ∀ err, EvGen (Err err) ∉ evs1 ++ evs2).
  { intros err [Hin|Hin]%elem_of_app.
    - by apply (proj1 (Forall_forall _ _) Hevs1) in Hin.
    - by apply (proj1 (Forall_forall _ _) Hevs2) in Hin. }
  assert (Hadds : ∀ c rp, EvRedis c rp ∈ evs1 ++ evs2 → adds c = true → rp = RBool false).
  { intros c rp [Hin|Hin]%elem_of_app Hc.
    - apply (proj1 (Forall_forall _ _) Hevs1) in Hin. simpl in Hin. congruence.
    - apply (proj1 (Forall_forall _ _) Hevs2) in Hin. simpl in Hin.
      by destruct c, rp as [| [|] | | | | |]. }
  inversion Hatt as [err' Hgen Hr Hw|token err' w'' Hgen Hl Hk Hz Hc Hr Hw
                    |token w'' Hgen Hl Hk Hz Hc Hr Hw
                    |token n e w'' Hgen Hl He Hk Hz Hc Hr Hw
                    |token err' rp e w'' Hgen Hl Hk Hgone Hz Hc Hr Hw].
  - destruct r as [|rerr]; simplify_eq/=.
    exists (evs1 ++ evs2 ++ [EvNow (clock wj); EvGen (Err rerr)]).
    split; [by rewrite Hlj, Hl1, <- !app_assoc |].
    intros err Hin. rewrite !app_assoc in Hin.
    apply elem_of_app in Hin as [Hin|Hin]; [by destruct (Hpre err) |].
    apply elem_of_cons in Hin as [[=]|Hin].
    apply list_elem_of_singleton in Hin. injection Hin as ->.
    split; [done |]. split; [by rewrite app_assoc, last_app_cons |].
    split; [simpl; congruence |].
    split; [intros key t s Hs; apply Hi1; simpl in Hs; by rewrite Hzj in Hs |].
    intros c rp Hin Hc. rewrite !app_assoc in Hin.
    apply elem_of_app in Hin as [Hin|Hin]; [by apply (Hadds c) |].
    apply elem_of_cons in Hin as [[=]|Hin]. by apply list_elem_of_singleton in Hin.
  - eexists. split; [rewrite Hl, Hlj, Hl1, <- !app_assoc; reflexivity |].
    intros err Hin. exfalso. rewrite !app_assoc in Hin.
    apply elem_of_app in Hin as [Hin|Hin]; [by destruct (Hpre err) |].
    not_among Hin.
  - by destruct r.
  - eexists. split; [rewrite Hl, Hlj, Hl1, <- !app_assoc; reflexivity |].
    intros err Hin. exfalso. rewrite !app_assoc in Hin.
    apply elem_of_app in Hin as [Hin|Hin]; [by destruct (Hpre err) |].
    not_among Hin.
  - eexists. split; [rewrite Hl, Hlj, Hl1, <- !app_assoc; reflexivity |].
    intros err Hin. exfalso. rewrite !app_assoc in Hin.
    apply elem_of_app in Hin as [Hin|Hin]; [by destruct (Hpre err) |].
    not_among Hin.
Qed.

Lemma saveUserToken_generator_error_witness :
  saveUserToken 5 "u" gen_a_then_fail "v" (2 * time.Second) w_taken_a =
    Some (Err (GenErr 7), w_after_gen_failure) ∧
  last (log w_after_gen_failure) = Some (EvGen (Err (GenErr 7))) ∧
  kv w_after_gen_failure = kv w_taken_a ∧
  index_shrinks w_taken_a w_after_gen_failure.
Proof.
  assert (Hrun : saveUserToken 5 "u" gen_a_then_fail "v" (2 * time.Second) w_taken_a =
                 Some (Err (GenErr 7), w_after_gen_failure)) by (vm_compute; reflexivity).
  split; [exact Hrun |].
  destruct (proj2 (saveUserToken_generator_error "u" gen_a_then_fail "v" (2 * time.Second))
              5%nat w_taken_a _ _ Hrun) as (evs & Hl & Hgen).
  assert (Hevs : evs = log w_after_gen_failure) by (rewrite Hl; reflexivity).
  assert (Hin : EvGen (Err (GenErr 7)) ∈ evs).
  { rewrite Hevs. apply (bool_decide_unpack _). vm_compute. exact I. }
  destruct (Hgen _ Hin) as (_ & Hlast & Hk & Hi & _).
  rewrite <- Hevs. by repeat split.
Defined.

(** ** C2: the index insert fails *)

(** C2, as stated, fails where it has the failure of the rollback
    reported: the rollback [Unlink] fails with code 7, the call returns the
    error of the [ZAdd] alone, and the failed [Unlink] is the last thing the
    call does; what it returns and what it leaves stored and indexed are
    the same when the rollback fails with code 8 instead. *)
Lemma saveUserToken_rollback_failure_dropped :
  saveUserToken 5 "u" gen_a_then_b "v" (2 * time.Second) (w_index_fails 7) =
    Some (Err (IOErr 3), w_after_index_failure 7) ∧
  last (log (w_after_index_failure 7)) =
    Some (EvRedis (Unlink [getTokenKey "a"]) (RError (IOErr 7))) ∧
  saveUserToken 5 "u" gen_a_then_b "v" (2 * time.Second) (w_index_fails 8) =
    Some (Err (IOErr 3), w_after_index_failure 8) ∧
  kv (w_after_index_failure 7) = kv (w_after_index_failure 8) ∧
  zsets (w_after_index_failure 7) = zsets (w_after_index_failure 8).
Proof. vm_compute. repeat split; reflexivity. Qed.

(** C2, amended: whenever the [ZAdd] of a call of [saveUserToken] is
    answered with an error, the call returns that error; the [ZAdd] came
    right after a [SetNX] of the token's record that was answered created,
    and is followed by one [Unlink] of that record, which is the last event
    of the call; when the [Unlink] is answered with a count the record is
    gone; whatever the [Unlink] is answered, it changes nothing in what the
    call returns, and the index holds nothing it did not hold before. *)
Theorem saveUserToken_index_failure_rollback (fuel : nat) (userId : string)
  (genToken : nat → result string) (value : string) (expiresIn : Z)
  (w : World) (r : result string) (w' : World) :
  saveUserToken fuel userId genToken value expiresIn w = Some (r, w') →
  ∃ evs, log w' = log w ++ evs ∧
    ∀ token score err,
      EvRedis (ZAdd (getUserTokenKey userId) token score) (RError err) ∈ evs →
      r = Err err ∧
      (∃ pre d rp,
         evs = pre ++ [EvRedis (SetNX (getTokenKey token) value d) (RBool true);
                       EvRedis (ZAdd (getUserTokenKey userId) token score) (RError err);
                       EvRedis (Unlink [getTokenKey token]) rp] ∧
         (∀ n, rp = RInt n → kv w' !! getTokenKey token = None)) ∧
      index_shrinks w w'.
Proof.
  intros Hrun.
  apply saveUserToken_run in Hrun as (j & wj & evs1 & evs2 & _ & Hk1 & Hi1 & Hl1 & Hevs1 &
    _ & Hkj & Hzj & Hlj & Hevs2 & Hatt).
  set (w1 := (cleanupUserToken userId w).2) in *.
  assert (Hpre : ∀ c err, adds c = true → EvRedis c (RError err) ∉ evs1 ++ evs2).
  { intros c err Hc [Hin|Hin]%elem_of_app.
    - apply (proj1 (Forall_forall _ _) Hevs1) in Hin. simpl in Hin. congruence.
    - apply (proj1 (Forall_forall _ _) Hevs2) in Hin. by destruct c. }
  inversion Hatt as [err' Hgen Hr Hw|token' err' w'' Hgen Hl Hk Hz Hc Hr Hw
                    |token' w'' Hgen Hl Hk Hz Hc Hr Hw
                    |token' n e w'' Hgen Hl He Hk Hz Hc Hr Hw
                    |token' err' rp e w'' Hgen Hl Hk Hgone Hz Hc Hr Hw].
  - exists (evs1 ++ evs2 ++ [EvNow (clock wj); EvGen (Err err')]).
    split; [subst w'; simpl; by rewrite Hlj, Hl1, <- !app_assoc |].
    intros token score err Hin. exfalso. rewrite !app_assoc in Hin.
    apply elem_of_app in Hin as [Hin|Hin]; [by destruct (Hpre (ZAdd (getUserTokenKey userId) token score) err eq_refl) |].
    not_among Hin.
  - eexists. split; [rewrite Hl, Hlj, Hl1, <- !app_assoc; reflexivity |].
    intros token score err Hin. exfalso. rewrite !app_assoc in Hin.
    apply elem_of_app in Hin as [Hin|Hin]; [by destruct (Hpre (ZAdd (getUserTokenKey userId) token score) err eq_refl) |].
    not_among Hin.
  - by destruct r.
  - eexists. split; [rewrite Hl, Hlj, Hl1, <- !app_assoc; reflexivity |].
    intros token score err Hin. exfalso. rewrite !app_assoc in Hin.
    apply elem_of_app in Hin as [Hin|Hin]; [by destruct (Hpre (ZAdd (getUserTokenKey userId) token score) err eq_refl) |].
    not_among Hin.
  - eexists. split; [rewrite Hl, Hlj, Hl1, <- !app_assoc; reflexivity |].
    intros token score err Hin. rewrite !app_assoc in Hin.
    apply elem_of_app in Hin as [Hin|Hin]; [by destruct (Hpre (ZAdd (getUserTokenKey userId) token score) err eq_refl) |].
    do 3 (apply elem_of_cons in Hin as [[=]|Hin]).
    apply elem_of_cons in Hin as [Heq|Hin]; [| not_among Hin].
    injection Heq as -> -> ->.
    split; [by destruct r; simplify_eq/= |]. split.
    + eexists (evs1 ++ evs2 ++ [EvNow (clock wj); EvGen (Ok token')]), _, rp.
      split; [by rewrite <- !app_assoc |]. done.
    + intros key t s. rewrite Hz, Hzj. apply Hi1.
Qed.

Lemma saveUserToken_index_failure_rollback_witness :
  saveUserToken 5 "u" gen_a_then_b "v" (2 * time.Second) (w_index_fails 7) =
    Some (Err (IOErr 3), w_after_index_failure 7) ∧
  (∃ pre d rp,
     log (w_after_index_failure 7) =
       pre ++ [EvRedis (SetNX (getTokenKey "a") "v" d) (RBool true);
               EvRedis (ZAdd (getUserTokenKey "u") "a" 7) (RError (IOErr 3));
               EvRedis (Unlink [getTokenKey "a"]) rp] ∧
     (∀ n, rp = RInt n → kv (w_after_index_failure 7) !! getTokenKey "a" = None)) ∧
  index_shrinks (w_index_fails 7) (w_after_index_failure 7).
Proof.
  assert (Hrun : saveUserToken 5 "u" gen_a_then_b "v" (2 * time.Second) (w_index_fails 7) =
                 Some (Err (IOErr 3), w_after_index_failure 7)) by (vm_compute; reflexivity).
  split; [exact Hrun |].
  destruct (saveUserToken_index_failure_rollback 5 "u" gen_a_then_b "v" (2 * time.Second)
              (w_index_fails 7) _ _ Hrun) as (evs & Hl & Hadd).
  assert (Hevs : evs = log (w_after_index_failure 7)) by (rewrite Hl; reflexivity).
  assert (Hin : EvRedis (ZAdd (getUserTokenKey "u") "a" 7) (RError (IOErr 3)) ∈ evs).
  { rewrite Hevs. apply (bool_decide_unpack _). vm_compute. exact I. }
  destruct (Hadd _ _ _ Hin) as (_ & Hroll & Hi).
  rewrite <- Hevs. by split.
Defined.

(** ** C1: collisions *)

Lemma saveToken_taken (token value : string) (d : Z) (w : World) (e : entry) :
  faultless w → kv w !! getTokenKey token = Some e → e_expire e = None → -1 ≤ d →
  ∃ w', saveToken token value d w = (Ok false, w') ∧ faultless w' ∧ kv w' = kv w.
Proof.
  intros Hf Hkv Hex Hd.
  destruct (saveToken token value d w) as [res w'] eqn:Hsave. exists w'.
  apply saveToken_inv in Hsave as (_ & _ & r & Hrt & _ & Hres).
  pose proof Hrt as Hrt'. apply (faultless_reply _ _ _ _ Hf) in Hrt' as [Hf' Hno].
  apply round_trip_inv in Hrt as (w1 & _ & Hk1 & _ & _ & [(code & -> & _)|(w2 & He & ->)]);
    [by destruct (Hno code) |].
  simpl in He.
  assert (Hse : ∃ ex, setnx_expire (clock w1) d = Some ex).
  { unfold setnx_expire. repeat case_bool_decide; try lia; by eexists. }
  destruct Hse as [ex Hse]. rewrite Hse in He.
  unfold kv_lookup, live in He. rewrite Hk1, Hkv, Hex in He. injection He as <- <-.
  destruct res as [[|]|err]; [by destruct Hres | | by destruct Hres].
  destruct Hres as [_ Hk]. done.
Qed.

Lemma issue_loop_always_taken (key : string) (genToken : nat → result string)
  (value : string) (expiresIn : Z) (token : string) (e : entry) (fuel i : nat) (w : World) :
  (∀ k, genToken k = Ok token) →
  time.is_Duration expiresIn → -1 ≤ expiresIn →
  faultless w → kv w !! getTokenKey token = Some e → e_expire e = None →
  issue_loop fuel key genToken value expiresIn i w = None.
Proof.
  intros Hgen Hdur Hd. revert i w. induction fuel as [|fuel IH]; intros i w Hf Hkv Hex; [done |].
  simpl.
  destruct (saveToken_taken token value
              (time.Sub (time.Add (clock w) expiresIn) (clock w))
              (record (EvGen (Ok token)) (record (EvNow (clock w)) w)) e)
    as (w1 & Hsave & Hf1 & Hk1); try done.
  { by rewrite Duration_Sub_Add. }
  assert (Ha : issue_attempt key genToken value expiresIn i w = (Ok None, w1)).
  { apply issue_attempt_collision. exists token. by split. }
  rewrite Ha. apply IH; [done | by rewrite Hk1 | done].
Qed.

(** C1: a candidate for which [saveToken] returns created = false ends
    neither the call nor the loop.  After any number of such turns the loop
    is where it would be had it started at the next turn, with the store
    and the index as they were; a call that has not returned has seen only
    collisions; a call that returns does so from a turn that created and
    indexed the token it returns, or with the error of the generator or of
    a failed round trip of that turn; and with a generator that only
    offers a token that is taken the call never returns, whatever the
    number of turns. *)
Theorem saveUserToken_collisions_retried (userId : string) (genToken : nat → result string)
  (value : string) (expiresIn : Z) :
  (∀ fuel w j wj,
     collisions genToken value expiresIn 0 (cleanupUserToken userId w).2 j wj →
     kv wj = kv w ∧ zsets wj = zsets (cleanupUserToken userId w).2 ∧
     saveUserToken (j + fuel) userId genToken value expiresIn w =
     issue_loop fuel (getUserTokenKey userId) genToken value expiresIn j wj) ∧
  (∀ fuel w,
     saveUserToken fuel userId genToken value expiresIn w = None →
     ∃ wj, collisions genToken value expiresIn 0 (cleanupUserToken userId w).2 fuel wj) ∧
  (∀ fuel w r w',
     saveUserToken fuel userId genToken value expiresIn w = Some (r, w') →
     ∃ j wj evs,
       (j < fuel)%nat ∧
       collisions genToken value expiresIn 0 (cleanupUserToken userId w).2 j wj ∧
       log w' = log wj ++ evs ∧
       match r with
       | Ok token =>
           genToken j = Ok token ∧
           ∃ d score n,
             evs = [EvNow (clock wj); EvGen (Ok token);
                    EvRedis (SetNX (getTokenKey token) value d) (RBool true);
                    EvRedis (ZAdd (getUserTokenKey userId) token score) (RInt n)]
       | Err err =>
           genToken j = Err err ∨ ∃ c, EvRedis c (RError err) ∈ evs
       end) ∧
  (∀ fuel w token e,
     (∀ k, genToken k = Ok token) →
     time.is_Duration expiresIn → -1 ≤ expiresIn →
     faultless (cleanupUserToken userId w).2 →
     kv w !! getTokenKey token = Some e → e_expire e = None →
     saveUserToken fuel userId genToken value expiresIn w = None).
Proof.
  split; [| split; [| split]].
  - intros fuel w j wj Hcol.
    pose proof (collisions_frame _ _ _ _ _ _ _ Hcol) as (_ & _ & Hk & Hz & _).
    destruct (discard_cleanup_inv userId w) as (_ & Hk1 & _).
    unfold discard in Hk1. simpl in Hk1.
    split; [congruence |]. split; [done |].
    unfold saveUserToken, discard. simpl.
    rewrite <- (issue_loop_collisions _ _ _ _ fuel _ _ _ _ Hcol).
    by rewrite Nat.sub_0_r.
  - intros fuel w Hnone. unfold saveUserToken, discard in Hnone. simpl in Hnone.
    pose proof (issue_loop_inv (getUserTokenKey userId) genToken value expiresIn fuel 0
                  (cleanupUserToken userId w).2) as Hinv.
    by rewrite Hnone in Hinv.
  - intros fuel w r w' Hrun.
    apply saveUserToken_run in Hrun as (j & wj & _ & _ & Hj & _ & _ & _ & _ & Hcol &
      _ & _ & _ & _ & Hatt).
    exists j, wj.
    inversion Hatt as [err' Hgen Hr Hw|token' err' w'' Hgen Hl Hk Hz Hc Hr Hw
                      |token' w'' Hgen Hl Hk Hz Hc Hr Hw
                      |token' n e w'' Hgen Hl He Hk Hz Hc Hr Hw
                      |token' err' rp e w'' Hgen Hl Hk Hgone Hz Hc Hr Hw];
      destruct r as [token|err]; simplify_eq/=.
    + exists [EvNow (clock wj); EvGen (Err err)].
      split; [done |]. split; [done |]. split; [by rewrite <- app_assoc |]. by left.
    + eexists. split; [done |]. split; [done |]. split; [done |]. right.
      eexists. do 2 apply list_elem_of_further. by apply list_elem_of_here.
    + eexists. split; [done |]. split; [done |]. split; [done |]. split; [done |].
      by eexists _, _, _.
    + eexists. split; [done |]. split; [done |]. split; [done |]. right.
      eexists. do 3 apply list_elem_of_further. by apply list_elem_of_here.
  - intros fuel w token e Hgen Hdur Hd Hf Hkv Hex.
    unfold saveUserToken, discard. simpl.
    destruct (discard_cleanup_inv userId w) as (_ & Hk1 & _).
    unfold discard in Hk1. simpl in Hk1.
    eapply issue_loop_always_taken; try done. by rewrite Hk1.
Qed.

Lemma saveUserToken_collisions_retried_witness :
  (∃ j wj evs,
     (j < 5)%nat ∧
     collisions gen_a_then_b "v" (2 * time.Second) 0 (cleanupUserToken "u" w_taken_a).2 j wj ∧
     log w_after_issue = log wj ++ evs ∧
     gen_a_then_b j = Ok "b" ∧
     ∃ d score n,
       evs = [EvNow (clock wj); EvGen (Ok "b");
              EvRedis (SetNX (getTokenKey "b") "v" d) (RBool true);
              EvRedis (ZAdd (getUserTokenKey "u") "b" score) (RInt n)]) ∧
  saveUserToken 9 "u" gen_always_a "v" (2 * time.Second) w_taken_a = None.
Proof.
  split.
  - apply (proj1 (proj2 (proj2
             (saveUserToken_collisions_retried "u" gen_a_then_b "v" (2 * time.Second))))
             5%nat w_taken_a (Ok "b") w_after_issue).
    vm_compute. reflexivity.
  - apply (proj2 (proj2 (proj2
             (saveUserToken_collisions_retried "u" gen_always_a "v" (2 * time.Second))))
             9%nat w_taken_a "a" {| e_value := "pa"; e_expire := None |}).
    + reflexivity.
    + vm_compute. split; discriminate.
    + vm_compute. discriminate.
    + vm_compute. repeat constructor.
    + vm_compute. reflexivity.
    + reflexivity.
Defined.

(** ** C7: listing with partial success *)

(** C7: once the members of the user's index have been enumerated, the
    call returns nil as its error, and its views are those of the members,
    taken in the order of the enumeration, that [loadUserToken] resolved;
    a member that [loadUserToken] failed on, with whatever error, is left
    out. *)
Theorem loadUserTokenList_partial_success (userId : string) (w : World)
  (members : list string) (w2 : World) :
  let key := getUserTokenKey userId in
  let w1 := (cleanupUserToken userId w).2 in
  cmd_StringSlice (ZRange key 0 (-1)) w1 = (Ok members, w2) →
  (∀ t, t ∈ members ↔ is_Some (zset_of (zsets w1) key !! t)) ∧
  NoDup members ∧
  ∃ views w', loadUserTokenList userId w = (Ok views, w') ∧
              resolves userId w2 members views w' ∧
              TokenString <$> views `sublist_of` members.
Proof.
  intros key w1 Hrange.
  destruct (loadUserTokenList userId w) as [res w'] eqn:Hlist.
  apply loadUserTokenList_inv in Hlist. cbv zeta in Hlist.
  unfold discard in Hlist. simpl in Hlist. fold w1 key in Hlist. rewrite Hrange in Hlist.
  destruct Hlist as (-> & views & -> & Hres).
  split; [intros t; apply elem_of_zmembers |]. split; [apply zmembers_NoDup |].
  exists views, w'. split; [done |]. split; [done |].
  by apply resolves_sound in Hres as (_ & Hsub & _).
Qed.

Lemma loadUserTokenList_partial_success_witness :
  ∃ w2 w',
    cmd_StringSlice (ZRange (getUserTokenKey "u") 0 (-1))
      (cleanupUserToken "u" w_two_members).2 = (Ok ["a"; "m"], w2) ∧
    loadUserTokenList "u" w_two_members =
      (Ok [{| TokenString := "a"; TokenData := "pa" |}], w') ∧
    resolves "u" w2 ["a"; "m"] [{| TokenString := "a"; TokenData := "pa" |}] w'.
Proof.
  eexists _, _. split; [vm_compute; reflexivity |].
  edestruct (loadUserTokenList_partial_success "u" w_two_members ["a"; "m"])
    as (_ & _ & views & w' & Hlist & Hres & _); [vm_compute; reflexivity |].
  assert (Hrun : loadUserTokenList "u" w_two_members =
            (Ok [{| TokenString := "a"; TokenData := "pa" |}],
             (loadUserTokenList "u" w_two_members).2)) by (vm_compute; reflexivity).
  rewrite Hrun in Hlist. injection Hlist as <- <-. split; [exact Hrun | exact Hres].
Defined.

(** ** C8: revocation *)

Lemma foldr_delete_idemp {V} (ks : list string) (m : gmap string V) :
  foldr delete (foldr delete m ks) ks = foldr delete m ks.
Proof.
  apply map_eq. intros k. rewrite !lookup_foldr_delete. by case_decide.
Qed.

Lemma zset_put_idemp (key : string) (ks : list string) (m : gmap string Z)
  (zs : gmap string (gmap string Z)) :
  let zs' := zset_put key (foldr delete m ks) zs in
  zset_put key (foldr delete (zset_of zs' key) ks) zs' = zs'.
Proof.
  intros zs'. assert (Hm : zset_of zs' key = foldr delete m ks).
  { unfold zs'. by rewrite zset_of_put, decide_True. }
  rewrite Hm, foldr_delete_idemp. unfold zs', zset_put.
  destruct (decide (foldr delete m ks = ∅)).
  - apply delete_id. apply lookup_delete_eq.
  - apply insert_insert_eq.
Qed.

Lemma deleteUserToken_faultless (userId : string) (tokens : list string) (w : World) :
  tokens ≠ [] → faultless w →
  ∃ w', deleteUserToken userId tokens w = (Ok (), w') ∧ faultless w' ∧
        kv w' = foldr delete (kv w) (getTokenKey <$> tokens) ∧
        zsets w' = zset_put (getUserTokenKey userId)
                     (foldr delete (zset_of (zsets w) (getUserTokenKey userId)) tokens)
                     (zsets w).
Proof.
  intros Hne Hf. unfold deleteUserToken, bind, deleteToken, cmd_Err.
  destruct (round_trip_faultless (ZRem (getUserTokenKey userId) tokens) w Hf) as [Hrt Hf1].
  destruct (transit_fields w) as (_ & Hk & Hz & _).
  rewrite Hrt in Hf1 |- *. clear Hrt.
  destruct tokens as [|t ts]; [done |]. cbn [exec fst snd reply_err] in Hf1 |- *.
  set (wa := record _ _) in *.
  destruct (round_trip_faultless (Unlink (getTokenKey <$> t :: ts)) wa Hf1) as [Hrt Hf2].
  destruct (transit_fields wa) as (_ & Hka & Hza & _).
  rewrite Hrt in Hf2 |- *. clear Hrt.
  cbn [fmap list_fmap exec fst snd reply_err] in Hf2 |- *.
  eexists. split; [reflexivity |]. split; [exact Hf2 |].
  cbn [kv zsets record with_kv with_zsets]. rewrite Hka, Hza.
  unfold wa. cbn [kv zsets record with_kv with_zsets]. by rewrite Hk, Hz.
Qed.

(** C8: with its round trips meeting no fault, [deleteUserToken] returns
    nil whether or not the tokens are indexed or stored, leaves none of them
    in the user's index or in the store, and a second call with the same
    arguments returns nil and leaves the store and the index as the first
    call left them. *)
Theorem deleteUserToken_idempotent (userId : string) (tokens : list string) (w : World) :
  tokens ≠ [] → faultless w →
  ∃ w1 w2,
    deleteUserToken userId tokens w = (Ok (), w1) ∧
    deleteUserToken userId tokens w1 = (Ok (), w2) ∧
    kv w2 = kv w1 ∧ zsets w2 = zsets w1 ∧
    ∀ t, t ∈ tokens →
      kv w1 !! getTokenKey t = None ∧
      zset_of (zsets w1) (getUserTokenKey userId) !! t = None.
Proof.
  intros Hne Hf.
  destruct (deleteUserToken_faultless userId tokens w Hne Hf) as (w1 & H1 & Hf1 & Hk1 & Hz1).
  destruct (deleteUserToken_faultless userId tokens w1 Hne Hf1) as (w2 & H2 & _ & Hk2 & Hz2).
  exists w1, w2. split; [done |]. split; [done |]. split; [| split].
  - by rewrite Hk2, Hk1, foldr_delete_idemp.
  - rewrite Hz2, Hz1. apply zset_put_idemp.
  - intros t Ht. split.
    + rewrite Hk1, lookup_foldr_delete, decide_True; [done |].
      by apply list_elem_of_fmap_2.
    + by rewrite Hz1, zset_of_put, decide_True, lookup_foldr_delete, decide_True.
Qed.

(** "a" is indexed and stored, "m" is indexed only, "z" is neither. *)
Lemma deleteUserToken_idempotent_witness :
  ∃ w1 w2,
    deleteUserToken "u" ["a"; "m"; "z"] (cleanupUserToken "u" w_two_members).2 = (Ok (), w1) ∧
    deleteUserToken "u" ["a"; "m"; "z"] w1 = (Ok (), w2) ∧
    kv w2 = kv w1 ∧ zsets w2 = zsets w1 ∧
    ∀ t, t ∈ ["a"; "m"; "z"] →
      kv w1 !! getTokenKey t = None ∧
      zset_of (zsets w1) (getUserTokenKey "u") !! t = None.
Proof.
  apply (deleteUserToken_idempotent "u" ["a"; "m"; "z"] (cleanupUserToken "u" w_two_members).2).
  - discriminate.
  - vm_compute. constructor.
Defined.

(** * Further properties of the backend *)

(** ** Keys *)

(** The two key derivations are injective and their images are disjoint:
    no token's record can be taken for another token's, or for a user's
    index. *)
Theorem keys_injective_and_apart :
  (∀ a b, getTokenKey a = getTokenKey b ↔ a = b) ∧
  (∀ a b, getUserTokenKey a = getUserTokenKey b ↔ a = b) ∧
  (∀ tokenString userId, getTokenKey tokenString ≠ getUserTokenKey userId).
Proof.
  split; [| split].
  - intros a b. split; [| by intros ->]. intros H. vm_compute in H. by injection H.
  - intros a b. split; [| by intros ->]. intros H. vm_compute in H. by injection H.
  - intros t u H. vm_compute in H. discriminate.
Qed.

(** ** The token store *)

Lemma SetNX_inv (key value : string) (d : Z) (w : World) (r : reply) (w' : World) :
  round_trip (SetNX key value d) w = (r, w') →
  (r = RBool true →
     ∀ e, kv w !! key = Some e → ¬ live (clock w') e) ∧
  (∀ e, kv w !! key = Some e → live (clock w') e → r ≠ RBool true ∧ kv w' = kv w).
Proof.
  intros Hrt.
  apply round_trip_inv in Hrt as (w1 & _ & Hk1 & _ & _ & [(code & -> & ->)|(w2 & He & ->)]).
  - split; [done |]. intros e _ _. by split.
  - simpl in He. destruct (setnx_expire (clock w1) d) as [ex|]; simpl.
    + unfold kv_lookup in He. rewrite Hk1 in He.
      destruct (kv w !! key) as [e0|] eqn:Hkv.
      * destruct (live (clock w1) e0) eqn:Hlive; injection He as <- <-; simpl.
        -- split; [done |]. intros e [= <-] _. by split.
        -- split.
           ++ intros _ e [= <-] Hl. by rewrite Hlive in Hl.
           ++ intros e [= <-] Hl. by rewrite Hlive in Hl.
      * injection He as <- <-. split; by intros.
    + injection He as <- <-. simpl. split; [done |]. intros e _ _. by rewrite Hk1.
Qed.

(** [saveToken] never overwrites a record that is alive: when the token's
    record exists and has not expired by the time the server runs the
    command, the call does not return created and the store is unchanged. *)
Theorem saveToken_keeps_live_record (token value : string) (d : Z) (w : World)
  (res : result bool) (w' : World) (e : entry) :
  saveToken token value d w = (res, w') →
  kv w !! getTokenKey token = Some e → live (clock w') e →
  res ≠ Ok true ∧ kv w' = kv w.
Proof.
  intros Hsave Hkv Hlive.
  apply saveToken_inv in Hsave as (_ & _ & r & Hrt & _ & Hres).
  apply SetNX_inv in Hrt as [_ Hkeep]. destruct (Hkeep e Hkv Hlive) as [Hr Hk].
  split; [| done]. intros ->. by destruct Hres as [-> _].
Qed.

Lemma saveToken_keeps_live_record_witness :
  (saveToken "a" "v" 0 w_taken_a).1 ≠ Ok true ∧
  kv (saveToken "a" "v" 0 w_taken_a).2 = kv w_taken_a.
Proof.
  apply (saveToken_keeps_live_record "a" "v" 0 w_taken_a _ _
           {| e_value := "pa"; e_expire := None |}); vm_compute; reflexivity.
Defined.

Lemma Get_inv (key : string) (w : World) (r : reply) (w' : World) :
  round_trip (Get key) w = (r, w') →
  kv w' = kv w ∧
  ((∃ code, r = RError (IOErr code)) ∨
   (∃ e, r = RBulk (e_value e) ∧ kv w !! key = Some e ∧ live (clock w') e) ∨
   (r = RNil ∧ ∀ e, kv w !! key = Some e → ¬ live (clock w') e)).
Proof.
  intros Hrt.
  pose proof (round_trip_kv_readonly (Get key) w I) as Hk. rewrite Hrt in Hk. simpl in Hk.
  split; [done |].
  apply round_trip_inv in Hrt as (w1 & _ & Hk1 & _ & _ & [(code & -> & ->)|(w2 & He & ->)]).
  - left. by exists code.
  - right. simpl in He. unfold kv_lookup in He. rewrite Hk1 in He.
    destruct (kv w !! key) as [e0|] eqn:Hkv.
    + destruct (live (clock w1) e0) eqn:Hlive; injection He as <- <-; simpl.
      * left. exists e0. split; [done |]. split; [done |]. by rewrite Hlive.
      * right. split; [done |]. intros e [= <-] Hl. by rewrite Hlive in Hl.
    + injection He as <- <-. right. by split.
Qed.

(** [loadToken] never lets [redis.Nil] through: a failed load is either
    [ErrTokenNotFound], and then the token has no record that is alive when
    the server answers, or a transport failure passed on as it is; either
    way nothing is changed. *)
Theorem loadToken_errors (token : string) (w : World) (err : error) (w' : World) :
  loadToken token w = (Err err, w') →
  kv w' = kv w ∧ zsets w' = zsets w ∧
  ((err = ErrTokenNotFound ∧
    ∀ e, kv w !! getTokenKey token = Some e → ¬ live (clock w') e) ∨
   (∃ code, err = IOErr code)).
Proof.
  intros Hload. apply loadToken_inv in Hload as (_ & Hk & Hz & r & Hrt & _ & Hres).
  split; [done |]. split; [done |].
  apply Get_inv in Hrt as [_ Hcase].
  destruct Hres as [[-> ->]|(code & -> & ->)]; [| right; by exists code].
  left. split; [done |].
  destruct Hcase as [(code & [=])|[(e & [=] & _)|[_ Hgone]]]. done.
Qed.

Lemma loadToken_errors_witness :
  kv (loadToken "b" w_taken_a).2 = kv w_taken_a ∧
  zsets (loadToken "b" w_taken_a).2 = zsets w_taken_a ∧
  ((ErrTokenNotFound = ErrTokenNotFound ∧
    ∀ e, kv w_taken_a !! getTokenKey "b" = Some e →
         ¬ live (clock (loadToken "b" w_taken_a).2) e) ∨
   (∃ code, ErrTokenNotFound = IOErr code)).
Proof.
  apply (loadToken_errors "b" w_taken_a ErrTokenNotFound). vm_compute. reflexivity.
Defined.

(** A record just created can be read back: after [saveToken] has
    returned created, a [loadToken] of the same token that meets no
    transport fault returns the value that was saved, provided the record
    has not expired by the time the server answers. *)
Theorem saveToken_then_loadToken (token value : string) (d : Z) (w w1 : World)
  (res : result string) (w2 : World) :
  saveToken token value d w = (Ok true, w1) →
  faultless w1 →
  loadToken token w1 = (res, w2) →
  (∀ e, kv w1 !! getTokenKey token = Some e → live (clock w2) e) →
  res = Ok value.
Proof.
  intros Hsave Hf Hload Halive.
  apply saveToken_inv in Hsave as (_ & _ & r & _ & _ & _ & ex & _ & Hk1).
  assert (Hkv : kv w1 !! getTokenKey token = Some {| e_value := value; e_expire := ex |})
    by (rewrite Hk1; apply lookup_insert_eq).
  apply loadToken_inv in Hload as (_ & _ & _ & r2 & Hrt & _ & Hres).
  pose proof Hrt as Hrt'. apply (faultless_reply _ _ _ _ Hf) in Hrt' as [_ Hno].
  apply Get_inv in Hrt as [_ Hcase].
  destruct res as [data|err].
  - destruct Hres as (_ & e & He & <- & _). rewrite Hkv in He. by injection He as <-.
  - exfalso. destruct Hres as [[-> ->]|(code & -> & ->)]; [| by destruct (Hno code)].
    destruct Hcase as [(code & [=])|[(e & [=] & _)|[_ Hgone]]].
    by apply (Hgone _ Hkv), Halive.
Qed.

Lemma saveToken_then_loadToken_witness :
  (loadToken "b" (saveToken "b" "v" (2 * time.Second) w_taken_a).2).1 = Ok "v".
Proof.
  eapply (saveToken_then_loadToken "b" "v" (2 * time.Second) w_taken_a
            (saveToken "b" "v" (2 * time.Second) w_taken_a).2).
  - vm_compute. reflexivity.
  - vm_compute. repeat constructor.
  - apply surjective_pairing.
  - intros e He. vm_compute in He. injection He as <-. vm_compute. exact I.
Defined.

(** [isTokenExist] answers true exactly when the token has a record that
    is alive when the server answers, and changes neither the store nor the
    index. *)
Theorem isTokenExist_reflects (token : string) (w : World) (b : bool) (w' : World) :
  isTokenExist token w = (Ok b, w') →
  kv w' = kv w ∧ zsets w' = zsets w ∧
  (b = true ↔ ∃ e, kv w !! getTokenKey token = Some e ∧ live (clock w') e).
Proof.
  unfold isTokenExist, bind, cmd_Int.
  destruct (round_trip _ w) as [r w2] eqn:Hrt.
  pose proof (round_trip_kv_readonly (Exists (getTokenKey token)) w I) as Hk.
  pose proof (round_trip_zsets_readonly (Exists (getTokenKey token)) w I) as Hz.
  rewrite Hrt in Hk, Hz. simpl in Hk, Hz.
  apply round_trip_inv in Hrt as (w1 & _ & Hk1 & _ & _ & [(code & -> & ->)|(w3 & He & ->)]);
    [done |].
  simpl in He. injection He as <- <-. unfold kv_lookup. rewrite Hk1.
  destruct (kv w !! getTokenKey token) as [e|] eqn:Hkv.
  - destruct (live (clock w1) e) eqn:Hlive; simpl; intros [= <- <-];
      (split; [done |]; split; [done |]); simpl.
    + split; [| done]. intros _. exists e. split; [done |]. by rewrite Hlive.
    + split; [done |]. intros (e' & [= <-] & Hl). by rewrite Hlive in Hl.
  - simpl. intros [= <- <-]. split; [done |]. split; [done |].
    split; [done |]. by intros (e' & [=] & _).
Qed.

Lemma isTokenExist_reflects_witness :
  kv (isTokenExist "a" w_taken_a).2 = kv w_taken_a ∧
  zsets (isTokenExist "a" w_taken_a).2 = zsets w_taken_a ∧
  (true = true ↔
   ∃ e, kv w_taken_a !! getTokenKey "a" = Some e ∧
        live (clock (isTokenExist "a" w_taken_a).2) e).
Proof.
  apply (isTokenExist_reflects "a" w_taken_a true). vm_compute. reflexivity.
Defined.

(** When [deleteToken] returns nil it was given at least one token, the
    records of the given tokens are gone, every other key of the store is as
    it was, and the index is untouched. *)
Theorem deleteToken_removes (tokens : list string) (w w' : World) :
  deleteToken tokens w = (Ok (), w') →
  tokens ≠ [] ∧ zsets w' = zsets w ∧
  ∀ key, kv w' !! key =
         if decide (key ∈ getTokenKey <$> tokens) then None else kv w !! key.
Proof.
  intros Hdel. unfold deleteToken in Hdel.
  apply cmd_Err_inv in Hdel as (r & Hrt & Hres).
  pose proof (round_trip_zsets_readonly (Unlink (getTokenKey <$> tokens)) w I) as Hz.
  rewrite Hrt in Hz. simpl in Hz.
  apply round_trip_inv in Hrt as (w1 & _ & Hk1 & _ & _ & [(code & -> & ->)|(w2 & He & ->)]);
    [done |].
  destruct tokens as [|t ts]; [simpl in He; by injection He as <- <- |].
  split; [done |]. split; [done |]. intros key.
  change (getTokenKey <$> t :: ts) with (getTokenKey t :: (getTokenKey <$> ts)) in He.
  cbn [exec] in He. injection He as _ <-. cbn [kv record with_kv]. rewrite Hk1.
  exact (lookup_foldr_delete (getTokenKey t :: (getTokenKey <$> ts)) (kv w) key).
Qed.

Lemma deleteToken_removes_witness :
  ["a"; "z"] ≠ [] ∧
  zsets (deleteToken ["a"; "z"] w_taken_a).2 = zsets w_taken_a ∧
  ∀ key, kv (deleteToken ["a"; "z"] w_taken_a).2 !! key =
         if decide (key ∈ getTokenKey <$> ["a"; "z"]) then None else kv w_taken_a !! key.
Proof.
  apply (deleteToken_removes ["a"; "z"] w_taken_a). vm_compute. reflexivity.
Defined.

(** ** Reconciliation, further *)

Lemma round_trip_faultless_inv (c : cmd) (w : World) (r : reply) (w' : World) :
  faultless w → round_trip c w = (r, w') →
  faultless w' ∧
  ∃ w1 w2, clock w ≤ clock w1 ∧ kv w1 = kv w ∧ zsets w1 = zsets w ∧
           exec c w1 = (r, w2) ∧ w' = record (EvRedis c r) w2.
Proof.
  intros Hf Hrt. pose proof Hrt as Hrt'.
  apply (faultless_reply _ _ _ _ Hf) in Hrt' as [Hf' Hno]. split; [done |].
  apply round_trip_inv in Hrt as (w1 & Hc & Hk & Hz & _ & [(code & -> & _)|(w2 & He & ->)]);
    [by destruct (Hno code) |].
  by exists w1, w2.
Qed.

Lemma isTokenExist_false (token : string) (w w' : World) :
  isTokenExist token w = (Ok false, w') →
  ∀ e, kv w !! getTokenKey token = Some e → ¬ live (clock w') e.
Proof.
  unfold isTokenExist, bind, cmd_Int.
  destruct (round_trip _ w) as [r w2] eqn:Hrt.
  apply round_trip_inv in Hrt as (w1 & _ & Hk1 & _ & _ & [(code & -> & ->)|(w3 & He & ->)]);
    [done |].
  simpl in He. injection He as <- <-. unfold kv_lookup. rewrite Hk1.
  destruct (kv w !! getTokenKey token) as [e0|] eqn:Hkv; [| by intros _ e [=]].
  destruct (live (clock w1) e0) eqn:Hlive; simpl; [done |].
  intros [= <-] e [= <-] Hl. simpl in Hl. by rewrite Hlive in Hl.
Qed.

Lemma isTokenExist_faultless (token : string) (w : World) :
  faultless w → ∃ b w', isTokenExist token w = (Ok b, w') ∧ faultless w'.
Proof.
  intros Hf. unfold isTokenExist, bind, cmd_Int.
  destruct (round_trip _ w) as [r w2] eqn:Hrt.
  apply (round_trip_faultless_inv _ _ _ _ Hf) in Hrt
    as (Hf2 & w1 & w3 & _ & _ & _ & He & ->).
  simpl in He. injection He as <- <-.
  case_bool_decide; by eexists _, _.
Qed.

(** The members [collect_stale] adds to its list had no record alive when
    it was done, and with no fault it goes through the whole list. *)
Lemma collect_stale_stale (userTokens acc : list string) (w : World)
  (out : list string) (w' : World) :
  collect_stale userTokens acc w = (Ok out, w') →
  ∀ t, t ∈ out →
    t ∈ acc ∨ (t ∈ userTokens ∧ ∀ e, kv w !! getTokenKey t = Some e → ¬ live (clock w') e).
Proof.
  revert acc w. induction userTokens as [|token rest IH]; intros acc w.
  - simpl. unfold ret. intros [= <- <-] t Ht. by left.
  - rewrite collect_stale_cons.
    destruct (isTokenExist token w) as [[ex|err] w1] eqn:Hex; [| done].
    intros Hrest t Ht.
    pose proof (collect_stale_inv _ _ _ _ _ Hrest) as (Hc2 & _).
    pose proof (isTokenExist_inv _ _ _ _ Hex) as (_ & Hk1 & _).
    destruct (IH _ _ Hrest t Ht) as [Hacc|[Hin Hgone]].
    + destruct ex; [by left |].
      apply elem_of_app in Hacc as [?|Heq%list_elem_of_singleton]; [by left |].
      subst t. right. split; [by left |].
      intros e He Hl. apply (isTokenExist_false _ _ _ Hex e He).
      by eapply live_earlier.
    + right. split; [by right |]. intros e He. apply Hgone. by rewrite Hk1.
Qed.

Lemma collect_stale_faultless (userTokens acc : list string) (w : World) :
  faultless w → ∃ out w', collect_stale userTokens acc w = (Ok out, w') ∧ faultless w'.
Proof.
  revert acc w. induction userTokens as [|token rest IH]; intros acc w Hf.
  - by exists acc, w.
  - rewrite collect_stale_cons.
    destruct (isTokenExist_faultless token w Hf) as (b & w1 & -> & Hf1). by apply IH.
Qed.

Lemma removeExpiredByScore_keeps (key : string) (w : World) (res : result ()) (w' : World) :
  removeExpiredByScore key w = (res, w') →
  ∀ key' t s, zset_of (zsets w) key' !! t = Some s →
              ¬ (key' = key ∧ 0 ≤ s ≤ time.Unix (clock w)) →
              zset_of (zsets w') key' !! t = Some s.
Proof.
  destruct res as [[]|err].
  - intros (Hrange & _)%removeExpiredByScore_ok key' t s Hs Hn. by apply Hrange.
  - unfold removeExpiredByScore, bind, time_Now.
    intros (r & Hrt & Hres)%cmd_Err_inv key' t s Hs _.
    apply round_trip_inv in Hrt as (w1 & _ & _ & Hz1 & _ & [(code & -> & ->)|(w2 & He & ->)]).
    + simpl. by rewrite Hz1.
    + simpl in He. by injection He as <- <-.
Qed.

Lemma removeExpiredByScore_faultless (key : string) (w : World) :
  faultless w → ∃ w', removeExpiredByScore key w = (Ok (), w') ∧ faultless w'.
Proof.
  intros Hf. unfold removeExpiredByScore, bind, time_Now, cmd_Err.
  destruct (round_trip _ _) as [r w2] eqn:Hrt.
  apply round_trip_faultless_inv in Hrt as (Hf2 & w1 & w3 & _ & _ & _ & He & ->); [| done].
  simpl in He. injection He as <- <-. by eexists.
Qed.

Lemma ZRange_faultless (key : string) (w : World) :
  faultless w →
  ∃ w', cmd_StringSlice (ZRange key 0 (-1)) w = (Ok (zmembers (zset_of (zsets w) key)), w') ∧
        faultless w'.
Proof.
  intros Hf. unfold cmd_StringSlice.
  destruct (round_trip _ _) as [r w2] eqn:Hrt.
  apply round_trip_faultless_inv in Hrt as (Hf2 & w1 & w3 & _ & _ & Hz & He & ->); [| done].
  simpl in He. injection He as <- <-. rewrite zrange_all, Hz. by eexists.
Qed.

Lemma ZRem_keeps (key : string) (members : list string) (w : World)
  (res : result ()) (w' : World) :
  cmd_Err (ZRem key members) w = (res, w') →
  ∀ t, t ∉ members → zset_of (zsets w') key !! t = zset_of (zsets w) key !! t.
Proof.
  intros (r & Hrt & _)%cmd_Err_inv t Ht.
  apply round_trip_inv in Hrt as (w1 & _ & _ & Hz1 & _ & [(code & -> & ->)|(w2 & He & ->)]).
  - simpl. by rewrite Hz1.
  - destruct members as [|m ms]; simpl in He; injection He as <- <-; simpl.
    + by rewrite Hz1.
    + rewrite zset_of_put, decide_True, Hz1 by done.
      change (delete m (foldr delete (zset_of (zsets w) key) ms))
        with (foldr delete (zset_of (zsets w) key) (m :: ms)).
      by rewrite lookup_foldr_delete, decide_False.
Qed.

(** Reconciliation only prunes the index of its user: whatever it
    returns, the token store is as it was, no index gained an entry or had
    a score changed, and the indexes of the other users are as they were. *)
Theorem cleanupUserToken_only_prunes (userId : string) (w : World) :
  kv (cleanupUserToken userId w).2 = kv w ∧
  index_shrinks w (cleanupUserToken userId w).2 ∧
  ∀ other, other ≠ userId →
    zset_of (zsets (cleanupUserToken userId w).2) (getUserTokenKey other) =
    zset_of (zsets w) (getUserTokenKey other).
Proof.
  destruct (cleanupUserToken userId w) as [res w'] eqn:Hcl. simpl.
  apply cleanupUserToken_inv in Hcl as (_ & Hk & Hi & Hz & _).
  split; [done |]. split; [done |]. intros other Hne. apply Hz.
  intros H. vm_compute in H. by injection H.
Qed.

Lemma cleanupUserToken_only_prunes_witness :
  kv (cleanupUserToken "u" w_owned).2 = kv w_owned ∧
  index_shrinks w_owned (cleanupUserToken "u" w_owned).2 ∧
  zset_of (zsets (cleanupUserToken "u" w_owned).2) (getUserTokenKey "owner") =
  zset_of (zsets w_owned) (getUserTokenKey "owner").
Proof.
  destruct (cleanupUserToken_only_prunes "u" w_owned) as (Hk & Hi & Hz).
  split; [done |]. split; [done |]. by apply Hz.
Defined.

Lemma cleanup_keeps_entry (userId : string) (w : World) (res : result ()) (w' : World)
  (t : string) (s : Z) (e : entry) :
  cleanupUserToken userId w = (res, w') →
  zset_of (zsets w) (getUserTokenKey userId) !! t = Some s →
  ¬ (0 ≤ s ≤ time.Unix (clock w)) →
  kv w !! getTokenKey t = Some e → live (clock w') e →
  zset_of (zsets w') (getUserTokenKey userId) !! t = Some s.
Proof.
  unfold cleanupUserToken. set (key := getUserTokenKey userId).
  intros Hcl Hs Hn Hkv Hlive. revert Hcl. unfold bind at 1.
  destruct (removeExpiredByScore key w) as [[[]|e1] w1] eqn:H1.
  2:{ intros [= <- <-]. eapply removeExpiredByScore_keeps; [done | done |]. by intros [_ ?]. }
  assert (Hs1 : zset_of (zsets w1) key !! t = Some s).
  { eapply removeExpiredByScore_keeps; [done | done |]. by intros [_ ?]. }
  apply removeExpiredByScore_inv in H1 as (_ & Hk1 & _).
  unfold bind at 1.
  destruct (cmd_StringSlice (ZRange key 0 (-1)) w1) as [[userTokens|e2] w2] eqn:H2;
    apply ZRange_all_inv in H2 as (_ & Hk2 & Hz2 & _ & _).
  2:{ intros [= <- <-]. by rewrite Hz2. }
  unfold bind at 1.
  destruct (collect_stale userTokens [] w2) as [[stale|e3] w3] eqn:H3.
  2:{ intros [= <- <-].
      apply collect_stale_inv in H3 as (_ & _ & Hz3 & _). by rewrite Hz3, Hz2. }
  pose proof (collect_stale_stale _ _ _ _ _ H3) as Hstale.
  apply collect_stale_inv in H3 as (_ & Hk3 & Hz3 & _).
  intros H4. pose proof (ZRem_inv _ _ _ _ _ H4) as (Hc4 & _).
  rewrite (ZRem_keeps _ _ _ _ _ H4), Hz3, Hz2; [done |].
  intros Hin. destruct (Hstale t Hin) as [Hnil|[_ Hgone]]; [by apply elem_of_nil in Hnil |].
  apply (Hgone e); [by rewrite Hk2, Hk1 |]. by eapply live_earlier.
Qed.

(** Reconciliation keeps what is valid: an entry whose score is not in
    the range the fast path removes, and whose record is still alive when
    the pass is over, is in the index after the pass, with its score,
    whatever the pass returns. *)
Theorem cleanupUserToken_keeps (userId : string) (w : World) (res : result ()) (w' : World)
  (t : string) (s : Z) (e : entry) :
  cleanupUserToken userId w = (res, w') →
  zset_of (zsets w) (getUserTokenKey userId) !! t = Some s →
  ¬ (0 ≤ s ≤ time.Unix (clock w)) →
  kv w !! getTokenKey t = Some e → live (clock w') e →
  zset_of (zsets w') (getUserTokenKey userId) !! t = Some s.
Proof. apply cleanup_keeps_entry. Qed.

Lemma cleanupUserToken_keeps_witness :
  zset_of (zsets (cleanupUserToken "u" w_brief_record).2) (getUserTokenKey "u") !! "old"
  = Some (-1).
Proof.
  eapply (cleanupUserToken_keeps "u" w_brief_record _ _ "old" (-1)
            {| e_value := "p"; e_expire := None |}).
  - apply surjective_pairing.
  - vm_compute. reflexivity.
  - vm_compute. intros [H _]. by apply H.
  - vm_compute. reflexivity.
  - exact I.
Defined.

(** Reconciliation returns nil only when its slow path had something to
    remove: some entry that the fast path had left, and that is gone from
    the index after the pass. *)
Theorem cleanupUserToken_nil_removed (userId : string) (w w' : World) :
  cleanupUserToken userId w = (Ok (), w') →
  ∃ t s, zset_of (zsets w) (getUserTokenKey userId) !! t = Some s ∧
         ¬ (0 ≤ s ≤ time.Unix (clock w)) ∧
         zset_of (zsets w') (getUserTokenKey userId) !! t = None.
Proof.
  unfold cleanupUserToken. set (key := getUserTokenKey userId). unfold bind at 1.
  destruct (removeExpiredByScore key w) as [[[]|e1] w1] eqn:H1; [| done].
  apply removeExpiredByScore_ok in H1 as (Hrange & _).
  unfold bind at 1.
  destruct (cmd_StringSlice (ZRange key 0 (-1)) w1) as [[userTokens|e2] w2] eqn:H2; [| done].
  apply ZRange_all_inv in H2 as (_ & _ & Hz2 & _ & Hmem).
  specialize (Hmem _ eq_refl). subst userTokens.
  unfold bind at 1.
  destruct (collect_stale _ [] w2) as [[stale|e3] w3] eqn:H3; [| done].
  apply collect_stale_inv in H3 as (_ & _ & Hz3 & _ & Hout).
  destruct (Hout _ eq_refl) as (_ & Hsub & _).
  intros (_ & _ & _ & _ & _ & Hok)%ZRem_inv. destruct (Hok eq_refl) as [Hne Hfinal].
  destruct stale as [|t stale']; [done |].
  destruct (Hsub t) as [Hnil|Hin]; [by left | by apply elem_of_nil in Hnil |].
  apply elem_of_zmembers in Hin as [s Hs1].
  apply Hrange in Hs1 as [Hs Hn].
  exists t, s. split; [done |]. split; [intros Hr; apply Hn; by split |].
  rewrite Hfinal, lookup_foldr_delete, decide_True; [done | by left].
Qed.

Lemma cleanupUserToken_nil_removed_witness :
  ∃ t s, zset_of (zsets w_brief_record) (getUserTokenKey "u") !! t = Some s ∧
         ¬ (0 ≤ s ≤ time.Unix (clock w_brief_record)) ∧
         zset_of (zsets (cleanupUserToken "u" w_brief_record).2) (getUserTokenKey "u") !! t
         = None.
Proof.
  apply (cleanupUserToken_nil_removed "u" w_brief_record). vm_compute. reflexivity.
Defined.

(** A direct reconciliation that finds nothing stale fails: with no
    transport fault, when every entry the fast path leaves has a record
    that is alive when the pass is over, the pass returns the server's
    refusal of a ZREM without members, having left in the index exactly the
    entries whose score is outside the range of the fast path. *)
Theorem cleanupUserToken_nothing_stale (userId : string) (w : World)
  (res : result ()) (w' : World) :
  cleanupUserToken userId w = (res, w') →
  faultless w →
  (∀ t s, zset_of (zsets w) (getUserTokenKey userId) !! t = Some s →
          ¬ (0 ≤ s ≤ time.Unix (clock w)) →
          ∃ e, kv w !! getTokenKey t = Some e ∧ live (clock w') e) →
  res = Err (wrong_arity "zrem") ∧
  ∀ t s, zset_of (zsets w') (getUserTokenKey userId) !! t = Some s ↔
         zset_of (zsets w) (getUserTokenKey userId) !! t = Some s ∧
         ¬ (0 ≤ s ≤ time.Unix (clock w)).
Proof.
  unfold cleanupUserToken. set (key := getUserTokenKey userId).
  intros Hcl Hf Halive. revert Hcl. unfold bind at 1.
  destruct (removeExpiredByScore_faultless key w Hf) as (w1 & H1 & Hf1). rewrite H1.
  pose proof (removeExpiredByScore_inv _ _ _ _ H1) as (_ & Hk1 & _).
  apply removeExpiredByScore_ok in H1 as (Hrange & _).
  unfold bind at 1.
  destruct (ZRange_faultless key w1 Hf1) as (w2 & H2 & Hf2). rewrite H2.
  apply ZRange_all_inv in H2 as (_ & Hk2 & Hz2 & _ & _).
  unfold bind at 1.
  destruct (collect_stale_faultless (zmembers (zset_of (zsets w1) key)) [] w2 Hf2)
    as (stale & w3 & H3 & Hf3). rewrite H3.
  pose proof (collect_stale_stale _ _ _ _ _ H3) as Hstale.
  apply collect_stale_inv in H3 as (_ & Hk3 & Hz3 & _).
  intros H4. pose proof (ZRem_inv _ _ _ _ _ H4) as (Hc4 & _).
  assert (Hnil : stale = []).
  { destruct stale as [|t stale']; [done |]. exfalso.
    destruct (Hstale t) as [Hnil|[Hin Hgone]]; [by left | by apply elem_of_nil in Hnil |].
    apply elem_of_zmembers in Hin as [s Hs1]. apply Hrange in Hs1 as [Hs Hn].
    destruct (Halive t s Hs) as (e & Hkv & Hlive); [intros Hr; apply Hn; by split |].
    apply (Hgone e); [by rewrite Hk2, Hk1 |]. by eapply live_earlier. }
  subst stale. split.
  - unfold cmd_Err in H4. destruct (round_trip _ w3) as [r w4] eqn:Hrt.
    apply round_trip_faultless_inv in Hrt as (_ & wa & wb & _ & _ & _ & He & _); [| done].
    simpl in He. injection He as <- <-. simpl in H4. by injection H4 as <- _.
  - intros t s. rewrite (ZRem_keeps _ _ _ _ _ H4), Hz3, Hz2 by apply not_elem_of_nil.
    rewrite Hrange. split.
    + intros [Hs Hn]. split; [done |]. intros Hr. apply Hn. by split.
    + intros [Hs Hn]. split; [done |]. by intros [_ Hr].
Qed.

Lemma cleanupUserToken_nothing_stale_witness :
  (cleanupUserToken "u" w_all_alive).1 = Err (wrong_arity "zrem") ∧
  ∀ t s, zset_of (zsets (cleanupUserToken "u" w_all_alive).2) (getUserTokenKey "u") !! t
         = Some s ↔
         zset_of (zsets w_all_alive) (getUserTokenKey "u") !! t = Some s ∧
         ¬ (0 ≤ s ≤ time.Unix (clock w_all_alive)).
Proof.
  apply (cleanupUserToken_nothing_stale "u" w_all_alive _ _ (surjective_pairing _)).
  - vm_compute. constructor.
  - intros t s Hs _. exists {| e_value := "pa"; e_expire := None |}.
    split; [| exact I]. unfold w_all_alive, zset_of in Hs. simpl in Hs.
    rewrite lookup_singleton_eq in Hs. simpl in Hs.
    apply lookup_singleton_Some in Hs as [<- _]. vm_compute. reflexivity.
Defined.

(** ** Lookup and issuance, further *)

Lemma cleanupUserToken_faultless (userId : string) (w : World) :
  faultless w → faultless (cleanupUserToken userId w).2.
Proof.
  intros Hf. unfold cleanupUserToken. set (key := getUserTokenKey userId).
  unfold bind at 1.
  destruct (removeExpiredByScore_faultless key w Hf) as (w1 & -> & Hf1).
  unfold bind at 1.
  destruct (ZRange_faultless key w1 Hf1) as (w2 & -> & Hf2).
  unfold bind at 1.
  destruct (collect_stale_faultless (zmembers (zset_of (zsets w1) key)) [] w2 Hf2)
    as (stale & w3 & -> & Hf3).
  unfold cmd_Err. destruct (round_trip _ w3) as [r w4] eqn:Hrt.
  apply (faultless_reply _ _ _ _ Hf3) in Hrt as [Hf4 _].
  by destruct (reply_err r).
Qed.

Lemma cleanupUserToken_removes_passed (userId : string) (w : World) (t : string) (s : Z) :
  faultless w →
  zset_of (zsets w) (getUserTokenKey userId) !! t = Some s →
  0 ≤ s ≤ time.Unix (clock w) →
  zset_of (zsets (cleanupUserToken userId w).2) (getUserTokenKey userId) !! t = None.
Proof.
  intros Hf Hs Hr. unfold cleanupUserToken. set (key := getUserTokenKey userId).
  unfold bind at 1.
  destruct (removeExpiredByScore_faultless key w Hf) as (w1 & H1 & Hf1). rewrite H1.
  apply removeExpiredByScore_ok in H1 as (Hrange & _).
  assert (H1 : zset_of (zsets w1) key !! t = None).
  { destruct (zset_of (zsets w1) key !! t) as [s'|] eqn:Hs'; [| done].
    apply Hrange in Hs' as [Hs' Hn]. unfold key in Hs'. rewrite Hs in Hs'.
    injection Hs' as <-. exfalso. apply Hn. by split. }
  unfold bind at 1.
  destruct (cmd_StringSlice (ZRange key 0 (-1)) w1) as [[userTokens|e2] w2] eqn:H2;
    apply ZRange_all_inv in H2 as (_ & _ & Hz2 & _ & _); [| simpl; by rewrite Hz2].
  unfold bind at 1.
  destruct (collect_stale userTokens [] w2) as [[stale|e3] w3] eqn:H3;
    apply collect_stale_inv in H3 as (_ & _ & Hz3 & _); [| simpl; by rewrite Hz3, Hz2].
  destruct (cmd_Err (ZRem key stale) w3) as [res w4] eqn:H4.
  apply ZRem_inv in H4 as (_ & _ & Hi4 & _). simpl.
  destruct (zset_of (zsets w4) key !! t) as [s'|] eqn:Hs'; [| done].
  apply Hi4 in Hs'. rewrite Hz3, Hz2 in Hs'. congruence.
Qed.

Lemma deleteToken_faultless (tokens : list string) (w : World) :
  faultless w → faultless (deleteToken tokens w).2.
Proof.
  intros Hf. unfold deleteToken, cmd_Err. destruct (round_trip _ w) as [r w'] eqn:Hrt.
  apply (faultless_reply _ _ _ _ Hf) in Hrt as [Hf' _]. by destruct (reply_err r).
Qed.

Lemma loadToken_faultless (token : string) (w : World) :
  faultless w → faultless (loadToken token w).2.
Proof.
  intros Hf. unfold loadToken, cmd_String. destruct (round_trip _ w) as [r w'] eqn:Hrt.
  apply (faultless_reply _ _ _ _ Hf) in Hrt as [Hf' _].
  destruct r; simpl; try done; by destruct (is_redis_nil _).
Qed.

Lemma lookup_user_token_faultless (userId tokenString : string) (w : World) :
  faultless w → faultless (lookup_user_token userId tokenString w).2.
Proof.
  intros Hf. unfold lookup_user_token, cmd_Float.
  destruct (round_trip _ w) as [r w2] eqn:Hrt.
  apply (faultless_reply _ _ _ _ Hf) in Hrt as [Hf2 _].
  assert (Hdel : faultless (discard (deleteToken [tokenString]) w2).2)
    by (by apply deleteToken_faultless).
  assert (Hload : faultless
            ((let* data := loadToken tokenString in
              ret {| TokenString := tokenString; TokenData := data |}) w2).2).
  { unfold bind. pose proof (loadToken_faultless tokenString w2 Hf2) as Hl.
    by destruct (loadToken tokenString w2) as [[?|?] ?]. }
  destruct r; simpl; try done; by destruct (is_redis_nil _).
Qed.

(** What [loadUserToken] returns once its pass is over, when no fault is met. *)
Lemma lookup_user_token_found (userId tokenString : string) (w : World) (s : Z) (e : entry)
  (res : result bUserTokenInfo) (w' : World) :
  faultless w →
  zset_of (zsets w) (getUserTokenKey userId) !! tokenString = Some s →
  kv w !! getTokenKey tokenString = Some e →
  lookup_user_token userId tokenString w = (res, w') →
  live (clock w') e →
  res = Ok {| TokenString := tokenString; TokenData := e_value e |}.
Proof.
  intros Hf Hs Hkv Hlook Hlive. unfold lookup_user_token in Hlook.
  destruct (cmd_Float _ w) as [[s'|err] w2] eqn:Hz;
    apply ZScore_inv in Hz as (_ & Hk2 & _ & r2 & Hrt2 & _ & Hres).
  2:{ apply (faultless_reply _ _ _ _ Hf) in Hrt2 as [_ Hno].
      destruct Hres as [(_ & _ & ?)|(code & -> & ->)]; [congruence | by destruct (Hno code)]. }
  apply (faultless_reply _ _ _ _ Hf) in Hrt2 as [Hf2 _].
  unfold bind in Hlook.
  destruct (loadToken tokenString w2) as [[data|err] w3] eqn:Hload;
    injection Hlook as <- <-;
    apply loadToken_inv in Hload as (_ & _ & _ & r3 & Hrt3 & _ & Hres3).
  - destruct Hres3 as (_ & e' & He' & <- & _). rewrite Hk2, Hkv in He'. by injection He' as <-.
  - exfalso. pose proof Hrt3 as Hrt3'.
    apply (faultless_reply _ _ _ _ Hf2) in Hrt3' as [_ Hno].
    apply Get_inv in Hrt3 as [_ Hcase].
    destruct Hres3 as [[-> ->]|(code & -> & ->)]; [| by destruct (Hno code)].
    destruct Hcase as [(code & [=])|[(e' & [=] & _)|[_ Hgone]]].
    apply (Hgone e); [by rewrite Hk2 | done].
Qed.

Lemma lookup_user_token_no_record (userId tokenString : string) (w : World) :
  faultless w → kv w !! getTokenKey tokenString = None →
  (lookup_user_token userId tokenString w).1 = Err ErrTokenNotFound.
Proof.
  intros Hf Hkv.
  destruct (zset_of (zsets w) (getUserTokenKey userId) !! tokenString) as [s|] eqn:Hs.
  - destruct (lookup_user_token_record_gone userId tokenString s w Hf Hs) as (w' & -> & _);
      [| done].
    unfold kv_lookup. by rewrite Hkv.
  - by destruct (lookup_user_token_absent userId tokenString w Hf Hs) as (n & w' & -> & _).
Qed.

(** A view returned by [loadUserToken] is that of the token asked for: the
    token is a member of the user's index, the payload is the value of its
    record, which was alive at the call, and the call has left the store as
    it was. *)
Theorem loadUserToken_view (userId tokenString : string) (w : World)
  (v : bUserTokenInfo) (w' : World) :
  loadUserToken userId tokenString w = (Ok v, w') →
  TokenString v = tokenString ∧
  is_Some (zset_of (zsets w) (getUserTokenKey userId) !! tokenString) ∧
  (∃ e, kv w !! getTokenKey tokenString = Some e ∧ TokenData v = e_value e ∧
        live (clock w) e) ∧
  kv w' = kv w.
Proof.
  intros Hload. pose proof (loadUserToken_inv _ _ _ _ _ Hload) as (_ & Hv).
  destruct (Hv v eq_refl) as (Ht & Hm & e & Hkv & Hval & Hlv).
  split; [done |]. split; [done |]. split; [by exists e |].
  unfold loadUserToken, bind in Hload. unfold discard at 1 in Hload. simpl in Hload.
  destruct (discard_cleanup_inv userId w) as (_ & Hk1 & _).
  unfold discard in Hk1. simpl in Hk1.
  unfold lookup_user_token in Hload.
  destruct (cmd_Float _ _) as [[s|err] w2] eqn:Hz.
  - apply ZScore_inv in Hz as (_ & Hk2 & _).
    unfold bind in Hload.
    destruct (loadToken tokenString w2) as [[data|err] w3] eqn:Hl; [| done].
    apply loadToken_inv in Hl as (_ & Hk3 & _). injection Hload as _ <-. congruence.
  - by destruct (is_redis_nil err).
Qed.

Lemma loadUserToken_view_witness :
  ∃ v, (loadUserToken "u" "a" w_all_alive).1 = Ok v ∧
       TokenString v = "a" ∧
       is_Some (zset_of (zsets w_all_alive) (getUserTokenKey "u") !! "a") ∧
       (∃ e, kv w_all_alive !! getTokenKey "a" = Some e ∧ TokenData v = e_value e ∧
             live (clock w_all_alive) e) ∧
       kv (loadUserToken "u" "a" w_all_alive).2 = kv w_all_alive.
Proof.
  exists {| TokenString := "a"; TokenData := "pa" |}. split; [vm_compute; reflexivity |].
  apply (loadUserToken_view "u" "a" w_all_alive). vm_compute. reflexivity.
Defined.

(** Looking a token up under a user who does not hold it revokes it: with
    no transport fault, the call fails with [ErrTokenNotFound] and leaves
    the token without record, so that the next lookup of the token, by its
    owner or anyone, fails with [ErrTokenNotFound] as well. *)
Theorem loadUserToken_wrong_user_revokes (userId owner tokenString : string) (w : World) :
  faultless w →
  zset_of (zsets w) (getUserTokenKey userId) !! tokenString = None →
  (loadUserToken userId tokenString w).1 = Err ErrTokenNotFound ∧
  kv (loadUserToken userId tokenString w).2 !! getTokenKey tokenString = None ∧
  (loadUserToken owner tokenString (loadUserToken userId tokenString w).2).1
    = Err ErrTokenNotFound.
Proof.
  intros Hf Hm.
  pose proof (cleanupUserToken_faultless userId w Hf) as Hf1.
  assert (Hm1 : zset_of (zsets (cleanupUserToken userId w).2) (getUserTokenKey userId)
                !! tokenString = None).
  { destruct (discard_cleanup_inv userId w) as ([_ _ Hi _] & _).
    unfold discard in Hi. simpl in Hi.
    destruct (zset_of (zsets (cleanupUserToken userId w).2) (getUserTokenKey userId)
                !! tokenString) as [s|] eqn:Hs; [| done].
    apply Hi in Hs. by rewrite Hm in Hs. }
  pose proof (lookup_user_token_faultless userId tokenString _ Hf1) as Hf'.
  destruct (lookup_user_token_absent userId tokenString _ Hf1 Hm1)
    as (n & w' & Hlook & _ & Hgone).
  rewrite Hlook in Hf'. simpl in Hf'.
  assert (Heq : loadUserToken userId tokenString w = (Err ErrTokenNotFound, w')).
  { unfold loadUserToken, bind. unfold discard at 1. simpl. exact Hlook. }
  rewrite Heq. simpl. split; [done |]. split; [done |].
  unfold loadUserToken, bind. unfold discard at 1. simpl.
  apply lookup_user_token_no_record.
  - by apply cleanupUserToken_faultless.
  - destruct (discard_cleanup_inv owner w') as (_ & Hk & _).
    unfold discard in Hk. simpl in Hk. by rewrite Hk.
Qed.

Lemma loadUserToken_wrong_user_revokes_witness :
  (loadUserToken "u" "t" w_owned).1 = Err ErrTokenNotFound ∧
  kv (loadUserToken "u" "t" w_owned).2 !! getTokenKey "t" = None ∧
  (loadUserToken "owner" "t" (loadUserToken "u" "t" w_owned).2).1 = Err ErrTokenNotFound.
Proof.
  apply (loadUserToken_wrong_user_revokes "u" "owner" "t" w_owned).
  - vm_compute. constructor.
  - vm_compute. reflexivity.
Defined.

(** A token dies with its score: with no transport fault, once the epoch
    second of the clock has reached the score of a token's index entry,
    [loadUserToken] fails with [ErrTokenNotFound], whether or not the record
    is still alive, and leaves the token without index entry and without
    record. *)
Theorem loadUserToken_score_passed (userId tokenString : string) (s : Z) (w : World) :
  faultless w →
  zset_of (zsets w) (getUserTokenKey userId) !! tokenString = Some s →
  0 ≤ s ≤ time.Unix (clock w) →
  ∃ w', loadUserToken userId tokenString w = (Err ErrTokenNotFound, w') ∧
        kv w' !! getTokenKey tokenString = None ∧
        zset_of (zsets w') (getUserTokenKey userId) !! tokenString = None.
Proof.
  intros Hf Hs Hr.
  pose proof (cleanupUserToken_removes_passed userId w tokenString s Hf Hs Hr) as Hgone.
  pose proof (cleanupUserToken_faultless userId w Hf) as Hf1.
  destruct (lookup_user_token_absent userId tokenString _ Hf1 Hgone)
    as (n & w' & Hlook & _ & Hkv).
  exists w'. unfold loadUserToken, bind. unfold discard at 1. simpl.
  split; [done |]. split; [done |].
  apply lookup_user_token_inv in Hlook as (_ & Hz & _). by rewrite Hz.
Qed.

Lemma loadUserToken_score_passed_witness :
  is_Some (kv_lookup w_score_passed (getTokenKey "t")) ∧
  ∃ w', loadUserToken "u" "t" w_score_passed = (Err ErrTokenNotFound, w') ∧
        kv w' !! getTokenKey "t" = None ∧
        zset_of (zsets w') (getUserTokenKey "u") !! "t" = None.
Proof.
  split; [vm_compute; by eexists |].
  apply (loadUserToken_score_passed "u" "t" 6 w_score_passed).
  - vm_compute. constructor.
  - vm_compute. reflexivity.
  - vm_compute. split; discriminate.
Defined.

(** ** C6: errors of reconciliation *)








(** ** Issuance and listing, further *)

Lemma issue_attempt_fresh (key : string) (genToken : nat → result string)
  (value : string) (expiresIn : Z) (i : nat) (w : World) (token : string) (w' : World) :
  issue_attempt key genToken value expiresIn i w = (Ok (Some token), w') →
  ∀ e, kv w !! getTokenKey token = Some e → ¬ live (clock w') e.
Proof.
  unfold issue_attempt, bind at 1, time_Now. unfold bind at 1, call_gen.
  destruct (genToken i) as [token'|gerr] eqn:Hgen; [| done].
  unfold bind.
  destruct (saveToken token' value _ _) as [[ok|serr] w1] eqn:Hsave; [| done].
  destruct ok; [| done].
  apply saveToken_inv in Hsave as (_ & _ & r & Hrt & _ & -> & _).
  apply SetNX_inv in Hrt as [Hnew _].
  destruct (cmd_Err _ w1) as [[[]|err] w2] eqn:Hadd; [| done].
  apply ZAdd_inv in Hadd as (Hc2 & _).
  intros [= <- <-] e He Hl. apply (Hnew eq_refl e He). by eapply live_earlier.
Qed.

(** [saveUserToken] never hands out a token that is in use: a record the
    store held for the returned token when the call began had expired by
    the time the call returned. *)
Theorem saveUserToken_returns_unused (fuel : nat) (userId : string)
  (genToken : nat → result string) (value : string) (expiresIn : Z)
  (w : World) (token : string) (w' : World) :
  saveUserToken fuel userId genToken value expiresIn w = Some (Ok token, w') →
  ∀ e, kv w !! getTokenKey token = Some e → ¬ live (clock w') e.
Proof.
  intros Hrun e He. unfold saveUserToken, discard in Hrun. simpl in Hrun.
  pose proof (issue_loop_inv (getUserTokenKey userId) genToken value expiresIn fuel 0
                (cleanupUserToken userId w).2) as Hinv.
  rewrite Hrun in Hinv. destruct Hinv as (j & wj & _ & Hcol & Hlast).
  apply collisions_frame in Hcol as (_ & _ & Hkj & _).
  destruct (discard_cleanup_inv userId w) as (_ & Hk1 & _).
  unfold discard in Hk1. simpl in Hk1.
  apply (issue_attempt_fresh _ _ _ _ _ _ _ _ Hlast). by rewrite Hkj, Hk1.
Qed.

Lemma saveUserToken_returns_unused_witness :
  saveUserToken 5 "u" gen_always_a "v" (2 * time.Second) w_expired_a =
    Some (Ok "a", w_after_reissue) ∧
  ¬ live (clock w_after_reissue) {| e_value := "old"; e_expire := Some time.Second |}.
Proof.
  assert (Hrun : saveUserToken 5 "u" gen_always_a "v" (2 * time.Second) w_expired_a =
                 Some (Ok "a", w_after_reissue)) by (vm_compute; reflexivity).
  split; [exact Hrun |].
  apply (saveUserToken_returns_unused 5 "u" gen_always_a "v" (2 * time.Second)
           w_expired_a "a" w_after_reissue Hrun).
  vm_compute. reflexivity.
Defined.

(** A token just issued resolves: after [saveUserToken] has returned a
    token, a [loadUserToken] of that token for the same user that meets no
    transport fault returns the token with the payload it was issued with,
    provided the clock's second has not reached the entry's score when the
    lookup begins and the record has not expired when the lookup ends. *)
Theorem saveUserToken_then_loadUserToken (fuel : nat) (userId : string)
  (genToken : nat → result string) (value : string) (expiresIn : Z)
  (w : World) (token : string) (w1 : World) (res : result bUserTokenInfo) (w2 : World) :
  saveUserToken fuel userId genToken value expiresIn w = Some (Ok token, w1) →
  faultless w1 →
  loadUserToken userId token w1 = (res, w2) →
  (∀ s, zset_of (zsets w1) (getUserTokenKey userId) !! token = Some s →
        ¬ (0 ≤ s ≤ time.Unix (clock w1))) →
  (∀ e, kv w1 !! getTokenKey token = Some e → live (clock w2) e) →
  res = Ok {| TokenString := token; TokenData := value |}.
Proof.
  intros Hrun Hf Hload Hscore Halive.
  apply saveUserToken_run in Hrun as (j & wj & _ & _ & _ & _ & _ & _ & _ &
    _ & _ & _ & _ & _ & Hatt).
  simpl in Hatt. inversion Hatt as [| | |token' n e w'' Hgen Hl He Hk Hz Hc|]; subst.
  assert (Hkv : kv w1 !! getTokenKey token = Some e) by (rewrite Hk; apply lookup_insert_eq).
  assert (Hs : zset_of (zsets w1) (getUserTokenKey userId) !! token =
               Some (time.Unix (time.Add (clock wj) expiresIn))).
  { by rewrite Hz, zset_of_insert, decide_True, lookup_insert_eq. }
  unfold loadUserToken, bind in Hload. unfold discard at 1 in Hload. simpl in Hload.
  destruct (cleanupUserToken userId w1) as [cres wc] eqn:Hcl. simpl in Hload.
  pose proof (cleanupUserToken_faultless userId w1 Hf) as Hfc. rewrite Hcl in Hfc.
  simpl in Hfc.
  pose proof (lookup_user_token_inv _ _ _ _ _ Hload) as ([Hc2 _ _ _] & _).
  pose proof (cleanupUserToken_inv _ _ _ _ Hcl) as (_ & Hkc & _).
  assert (Hsc : zset_of (zsets wc) (getUserTokenKey userId) !! token =
                Some (time.Unix (time.Add (clock wj) expiresIn))).
  { eapply cleanup_keeps_entry; [exact Hcl | exact Hs | by apply Hscore | exact Hkv |].
    eapply live_earlier; [exact Hc2 | by apply Halive]. }
  rewrite (lookup_user_token_found userId token wc _ e res w2 Hfc Hsc); try done.
  - by rewrite Hkc.
  - by apply Halive.
Qed.

Lemma saveUserToken_then_loadUserToken_witness :
  (loadUserToken "u" "b" w_settled).1 = Ok {| TokenString := "b"; TokenData := "v" |}.
Proof.
  eapply (saveUserToken_then_loadUserToken 5 "u" gen_a_then_b "v" (2 * time.Second)
            w_all_alive "b" w_settled).
  - vm_compute. reflexivity.
  - vm_compute. constructor.
  - apply surjective_pairing.
  - intros s Hs. vm_compute in Hs. injection Hs as <-. vm_compute. intros [_ H]. by apply H.
  - intros e He. vm_compute in He. injection He as <-. vm_compute. exact I.
Defined.


